(** * workua-cv-updater: scheduling and recovery core

    Shallow embedding of [workua_cv_updater/__main__.py]: the jittered
    event streams, their merge, the sqlite-backed tracker, the browser
    guard and the control loop, together with the properties stated about
    them. *)

From Stdlib Require Import ZArith Lia List Bool Sorted SpecFloat.
From stdpp Require Import base gmap strings list.

Local Open Scope Z_scope.

(* ===================================================================== *)
(** * Part I: the program                                                  *)
(* ===================================================================== *)

(** ** Python floats

    Python's [float] is IEEE-754 binary64.  Every finite binary64 number is
    an integer multiple of [2^-1074], so a finite float is represented by
    that integer: the float [x] is the [Z] number [x * 2^1074].  Order and
    exact sums are then those of [Z]; the float operations round the exact
    result to the nearest representable number, ties to even.  The model
    covers the finite fragment (no NaN, no infinities): results of
    magnitude [2^1024] and more are outside of it. *)
Module B64.

(** The float [1.0]. *)
Definition one : Z := 2 ^ 1074.

(** Exponent of the spacing of the floats around magnitude [a]: below
    [2^53] units (subnormals and the first binade) the spacing is one
    unit, above it the significand keeps 53 bits. *)
Definition fexp (a : Z) : Z := Z.max 0 (Z.log2 a - 52).

(** Nearest integer to [n / d] for [0 <= n], [0 < d], ties to even. *)
Definition rne (n d : Z) : Z :=
  let q := n / d in
  let r2 := 2 * (n mod d) in
  if r2 <? d then q
  else if d <? r2 then q + 1
  else if Z.even q then q else q + 1.

(** The float nearest to the rational [n / d] (in units), [0 < d]. *)
Definition round (n d : Z) : Z :=
  let a := Z.abs n in
  let q := 2 ^ fexp (a / d) in
  Z.sgn n * (q * rne a (d * q)).

(** [x] is a binary64 number: its magnitude is a multiple of the spacing
    at that magnitude. *)
Definition is_b64 (x : Z) : bool :=
  Z.abs x mod 2 ^ fexp (Z.abs x) =? 0.

(** [x + y] and [x * y] on floats. *)
Definition add (x y : Z) : Z := round (x + y) 1.
Definition mul (x y : Z) : Z := round (x * y) one.

(** [float(n)] for a Python [int] [n]. *)
Definition of_int (n : Z) : Z := round (n * one) 1.

(** [x < y] on floats. *)
Definition ltb (x y : Z) : bool := x <? y.

(** Python's [max(x, y)]: [y] when [y > x], and [x] otherwise. *)
Definition max (x y : Z) : Z := if ltb x y then y else x.

End B64.

(** The same numbers in the standard library's specification of IEEE-754
    ([SpecFloat], with 53 bits of precision and [emax = 1024]), against
    which the operations above are checked on the inputs used below. *)
Definition of_spec (f : spec_float) : option Z :=
  match f with
  | S754_zero _ => Some 0
  | S754_finite s m e => Some ((if s then -1 else 1) * Z.pos m * 2 ^ (e + 1074))
  | _ => None
  end.

(** The binary64 number nearest to [m * 2^e]. *)
Definition ieee (m e : Z) : spec_float := binary_normalize 53 1024 m e false.

(** ** Randomised intervals *)

(** A value of [random()]: [k / 2^53] for the 53-bit integer [k] it is
    built from, [0 <= k < 2^53]. *)
Definition random_of (k : Z) : Z := k * 2 ^ 1021.

Definition is_draw (k : Z) : Prop := 0 <= k < 2 ^ 53.

(** [random_interval(base, min_drift, max_drift)], where [k] is the draw
    that the call to [random()] makes.  The three arguments are Python
    [int]s, so [base + min_drift] and [max_drift - min_drift] are exact and
    are converted when they meet a float. *)
Definition random_interval (base min_drift max_drift : Z) (k : Z) : Z :=
  B64.add (B64.of_int (base + min_drift))
          (B64.mul (random_of k) (B64.of_int (max_drift - min_drift))).

(** ** Scheduled events *)

Inductive ScheduledEvent := REFRESH | UPDATE.

Record ScheduleEntry := { when : Z; what : ScheduledEvent }.

Definition UPDATE_INTERVAL : Z := 7 * 24 * 3600.
Definition UPDATE_INTERVAL_MIN_DRIFT : Z := 10.
Definition UPDATE_INTERVAL_MAX_DRIFT : Z := 60.
Definition SESSION_REFRESH_INTERVAL : Z := 1 * 3600.
Definition SESSION_REFRESH_INTERVAL_MIN_DRIFT : Z := 10.
Definition SESSION_REFRESH_INTERVAL_MAX_DRIFT : Z := 60.

(** ** [heapq.merge] of iterables, with a [key]

    The iterables are generators that never end; the [p]-th value that the
    iterable [it] yields is [it p].  [merge] keeps one heap entry
    [[key(value), order, value, next]] per iterable, [order] being the index
    of the iterable among the arguments; entries compare as lists, so the
    top of the heap is the entry with the least [(key, order)].  It yields
    the value at the top and replaces it by the next value of the same
    iterable. *)
Section Merge.
Context {A : Type} (key : A -> Z).

(** A yielded value with the iterable it came from and its position
    there. *)
Record merged := { order : nat; position : nat; value : A }.

(** Index of the least key, the earliest one among equals. *)
Fixpoint heap_top (keys : list Z) : nat :=
  match keys with
  | [] => O
  | k :: keys' =>
      match keys' with
      | [] => O
      | _ => let j := heap_top keys' in
             match keys' !! j with
             | Some k' => if k' <? k then S j else O
             | None => O
             end
      end
  end.

(** The keys in the heap when iterable [i] stands at position [pos !! i]. *)
Definition heap_keys (its : list (nat -> A)) (pos : list nat) : list Z :=
  zip_with (fun it p => key (it p)) its pos.

(** The next [n] values from the state [pos]. *)
Fixpoint merge_from (its : list (nat -> A)) (pos : list nat) (n : nat)
  : list merged :=
  match n with
  | O => []
  | S n' =>
      let i := heap_top (heap_keys its pos) in
      match its !! i, pos !! i with
      | Some it, Some p =>
          {| order := i; position := p; value := it p |}
            :: merge_from its (<[i := S p]> pos) n'
      | _, _ => []
      end
  end.

(** The first [n] values of the merge of [its] on [key]. *)
Definition merge (its : list (nat -> A)) (n : nat) : list merged :=
  merge_from its (replicate (length its) O) n.

(** [x] is yielded before [y]: by key, then by the order of the
    iterables, then by position. *)
Definition merged_lt (x y : merged) : Prop :=
  key (value x) < key (value y) \/
  (key (value x) = key (value y) /\
   ((order x < order y)%nat \/
    (order x = order y /\ (position x < position y)%nat))).

(** [x] is still to come when the iterables stand at [pos]. *)
Definition pending (its : list (nat -> A)) (pos : list nat) (x : merged) : Prop :=
  exists it p0, its !! order x = Some it /\ pos !! order x = Some p0 /\
                (p0 <= position x)%nat /\ value x = it (position x).

Definition nondecreasing (it : nat -> A) : Prop :=
  forall p, key (it p) <= key (it (S p)).

End Merge.

Arguments order {A} _.
Arguments position {A} _.
Arguments value {A} _.

(** ** [class Scheduler] *)
Module Scheduler.

(** The variable [t] of [_event_stream] when the generator yields for the
    [n]-th time.  [now] is what [time()] returns when the generator
    starts, and [rnd i] is the draw of the [i]-th call to [random()] that
    the generator makes. *)
Fixpoint event_time (last_occured base min_drift max_drift now : Z)
         (rnd : nat -> Z) (n : nat) : Z :=
  match n with
  | O => B64.max (B64.add last_occured
                          (random_interval base min_drift max_drift (rnd O)))
                 now
  | S n' => B64.add (event_time last_occured base min_drift max_drift now rnd n')
                    (random_interval base min_drift max_drift (rnd n))
  end.

Definition _event_stream (token : ScheduledEvent)
           (last_occured base min_drift max_drift now : Z)
           (rnd : nat -> Z) : nat -> ScheduleEntry :=
  fun n => {| when := event_time last_occured base min_drift max_drift now rnd n;
              what := token |}.

(** [_iter_events(last_login, last_update)]: the two generators, merged
    on [ev.when].  [now] and [rnd] give, for each generator, its reading
    of the clock and its draws. *)
Definition _iter_events (last_login last_update : Z)
           (now : ScheduledEvent -> Z) (rnd : ScheduledEvent -> nat -> Z)
           (n : nat) : list (merged (A := ScheduleEntry)) :=
  merge when
        [ _event_stream REFRESH last_login
                        SESSION_REFRESH_INTERVAL
                        SESSION_REFRESH_INTERVAL_MIN_DRIFT
                        SESSION_REFRESH_INTERVAL_MAX_DRIFT
                        (now REFRESH) (rnd REFRESH);
          _event_stream UPDATE last_update
                        UPDATE_INTERVAL
                        UPDATE_INTERVAL_MIN_DRIFT
                        UPDATE_INTERVAL_MAX_DRIFT
                        (now UPDATE) (rnd UPDATE) ]
        n.

(** [next(self._it)] for the [i]-th time. *)
Definition __next__ (last_login last_update : Z)
           (now : ScheduledEvent -> Z) (rnd : ScheduledEvent -> nat -> Z)
           (i : nat) : option ScheduleEntry :=
  value <$> (_iter_events last_login last_update now rnd (S i) !! i).

End Scheduler.


(** ** [class UpdateTracker]

    The sqlite table [update_ts (name TEXT PRIMARY KEY, value REAL NOT NULL
    DEFAULT 0)] is a finite map from names to floats.  Faults of the
    storage itself are outside the model. *)
Module UpdateTracker.

Abbreviation table := (gmap string Z).

(** [DB_INIT]: [CREATE TABLE IF NOT EXISTS update_ts].  The database file
    either has the table already ([Some]) or not ([None]). *)
Definition DB_INIT (file : option table) : table :=
  match file with
  | Some t => t
  | None => ∅
  end.

(** [SELECT 1 FROM update_ts WHERE name = ?], and the [INSERT] of the
    row [(name, 0.)] when [fetchone()] is [None]. *)
Definition ensure_row (name : string) (t : table) : table :=
  match t !! name with
  | None => <[name := 0]> t
  | Some _ => t
  end.

Definition __init__ (file : option table) : table :=
  ensure_row "login" (ensure_row "last" (DB_INIT file)).

(** [SELECT value FROM update_ts WHERE name = ?]: the row of [fetchone()],
    if there is one. *)
Definition last_update (t : table) : option Z := t !! "last".
Definition last_login (t : table) : option Z := t !! "login".

(** [UPDATE update_ts SET value = ? WHERE name = ? AND value < ?] *)
Definition update_where (name : string) (ts : Z) (t : table) : table :=
  match t !! name with
  | Some v => if B64.ltb v ts then <[name := ts]> t else t
  | None => t
  end.

Definition update (ts : Z) (t : table) : table := update_where "last" ts t.
Definition login (ts : Z) (t : table) : table := update_where "login" ts t.

(** The operations by kind of event, as [update_loop] pairs them:
    [tracker.login] follows a refresh and [tracker.update] an update. *)
Definition record (k : ScheduledEvent) (ts : Z) (t : table) : table :=
  match k with
  | REFRESH => login ts t
  | UPDATE => update ts t
  end.

Definition last (k : ScheduledEvent) (t : table) : option Z :=
  match k with
  | REFRESH => last_login t
  | UPDATE => last_update t
  end.

(** The name of the row of a kind. *)
Definition row (k : ScheduledEvent) : string :=
  match k with
  | REFRESH => "login"
  | UPDATE => "last"
  end.

End UpdateTracker.

(** ** Exceptions, external calls and the world *)

Inductive exn :=
| WebDriverException (id : nat)  (* selenium's class and its subclasses *)
| Exception (id : nat)           (* the other subclasses of [Exception] *)
| KeyboardInterrupt.

(** What [None[0]] raises. *)
Definition TypeError : exn := Exception 0.

Definition is_WebDriverException (e : exn) : bool :=
  match e with WebDriverException _ => true | _ => false end.

Definition is_Exception (e : exn) : bool :=
  match e with KeyboardInterrupt => false | _ => true end.

(** The calls that leave the program.  [action what] is the browser script
    of the event, [refresh(browser, timeout)] or [update(browser, timeout)],
    taken as one call to the browser that returns or raises;
    [save_screenshot dir stamp] writes the file of [dir] that [strftime]
    names [err-%Y-%m-%d-%H-%M-%S.png] for the second [stamp]. *)
Inductive call :=
| browser_new
| action (what : ScheduledEvent)
| current_url
| get_cookies
| save_screenshot (dir : string) (stamp : Z)
| quit
| sleep (seconds : Z).

(** What has happened so far, oldest first: the calls made, each with the
    exception it raised if it did, and the readings of the clock. *)
Inductive event :=
| Called (c : call) (raised : option exn)
| Clock (t : Z).

Record world := { trace : list event; db : gmap string Z }.

(** The surroundings of the program: whether a call raises, and what the
    clock shows, given all that has happened before. *)
Record environment := {
  raises : list event -> call -> option exn;
  clock : list event -> Z
}.

Inductive res (A : Type) :=
| Ret (a : A)
| Raise (e : exn)
| OutOfFuel.

Arguments Ret {A} _.
Arguments Raise {A} _.
Arguments OutOfFuel {A}.

Definition M (A : Type) : Type := world -> res A * world.

Definition ret {A} (a : A) : M A := fun w => (Ret a, w).

Definition raise {A} (e : exn) : M A := fun w => (Raise e, w).

Definition bind {A B} (m : M A) (k : A -> M B) : M B :=
  fun w =>
    match m w with
    | (Ret a, w') => k a w'
    | (Raise e, w') => (Raise e, w')
    | (OutOfFuel, w') => (OutOfFuel, w')
    end.

Declare Scope py_scope.
Delimit Scope py_scope with py.
Notation "x <- m ;; k" := (bind m (fun x => k))
  (at level 100, m at next level, right associativity) : py_scope.
Notation "m ;; k" := (bind m (fun _ => k))
  (at level 100, right associativity) : py_scope.

(** [try: body except ...: handler].  [handler exc] is the clause that
    matches [exc], if one does. *)
Definition try_except {A} (body : M A) (handler : exn -> option (M A)) : M A :=
  fun w =>
    match body w with
    | (Raise e, w') =>
        match handler e with
        | Some h => h w'
        | None => (Raise e, w')
        end
    | r => r
    end.

(** [try: body except ...: handler else: orelse] *)
Definition try_except_else {A} (body : M A) (handler : exn -> option (M A))
           (orelse : M unit) : M A :=
  fun w =>
    match body w with
    | (Ret a, w') =>
        match orelse w' with
        | (Ret _, w'') => (Ret a, w'')
        | (Raise e, w'') => (Raise e, w'')
        | (OutOfFuel, w'') => (OutOfFuel, w'')
        end
    | (Raise e, w') =>
        match handler e with
        | Some h => h w'
        | None => (Raise e, w')
        end
    | (OutOfFuel, w') => (OutOfFuel, w')
    end.

(** [try: body finally: final]: [final] runs however [body] ends, and
    what it raises replaces the outcome of [body]. *)
Definition try_finally {A} (body : M A) (final : M unit) : M A :=
  fun w =>
    match body w with
    | (OutOfFuel, w') => (OutOfFuel, w')
    | (r, w') =>
        match final w' with
        | (Ret _, w'') => (r, w'')
        | (Raise e, w'') => (Raise e, w'')
        | (OutOfFuel, w'') => (OutOfFuel, w'')
        end
    end.

Definition record_event (ev : event) (w : world) : world :=
  {| trace := trace w ++ [ev]; db := db w |}.

Section Program.
Variable env : environment.

Local Open Scope py_scope.

(** A call that may raise. *)
Definition ext (c : call) : M unit :=
  fun w =>
    match raises env (trace w) c with
    | None => (Ret tt, record_event (Called c None) w)
    | Some e => (Raise e, record_event (Called c (Some e)) w)
    end.

(** [browser.quit()], a call as any other: it may raise, and while it
    runs the handler of the signals may raise [KeyboardInterrupt]. *)
Definition browser_quit : M unit := ext quit.

(** [time()] *)
Definition time : M Z :=
  fun w => let t := clock env (trace w) in (Ret t, record_event (Clock t) w).

(** [tracker.last_update()] and [tracker.last_login()]: [fetchone()[0]]. *)
Definition tracker_read (select : gmap string Z -> option Z) : M Z :=
  fun w =>
    match select (db w) with
    | Some v => (Ret v, w)
    | None => (Raise TypeError, w)
    end.

(** [tracker.update(ts)] and [tracker.login(ts)]; [float(ts)] is [ts]. *)
Definition tracker_write (upd : gmap string Z -> gmap string Z) : M unit :=
  fun w => (Ret tt, {| trace := trace w; db := upd (db w) |}).

(** [wall_clock_wait(when, precision=1.)]; [fuel] bounds the number of
    turns of the [while]. *)
Fixpoint wall_clock_wait (fuel : nat) (when_ : Z) (precision : Z) : M unit :=
  match fuel with
  | O => fun w => (OutOfFuel, w)
  | S fuel' =>
      t <- time ;;
      if B64.ltb t when_
      then ext (sleep precision) ;; wall_clock_wait fuel' when_ precision
      else ret tt
  end.

(** [with managed_browser(browser_factory) as browser: body].  The calls
    to the logger are left out; their arguments are evaluated. *)
Definition managed_browser {A} (screenshot_dir : string) (body : M A) : M A :=
  ext browser_new ;;
  try_finally
    (try_except_else
       body
       (fun exc =>
          if is_WebDriverException exc
          then Some (ext current_url ;;
                     ext get_cookies ;;
                     t <- time ;;
                     ext (save_screenshot screenshot_dir (t / B64.one)) ;;
                     raise exc)
          else None)
       (ext current_url ;;
        ext get_cookies))
    browser_quit.

(** The [with] statement of the branch of [update_loop] for the kind
    [k]. *)
Definition with_browser (screenshot_dir : string) (k : ScheduledEvent) : M unit :=
  match k with
  | REFRESH => managed_browser screenshot_dir (ext (action REFRESH))
  | UPDATE =>
      managed_browser screenshot_dir
        (try_except (ext (action UPDATE))
                    (fun exc => if is_WebDriverException exc
                                then Some (raise exc) else None))
  end.

(** The [except] clauses of the [try] statement in the body of the [for]
    of [update_loop]: [except KeyboardInterrupt: raise], then
    [except Exception], which logs and goes on. *)
Definition event_handler (exc : exn) : option (M unit) :=
  match exc with
  | KeyboardInterrupt => Some (raise exc)
  | _ => if is_Exception exc then Some (ret tt) else None
  end.

(** The [try] statement in the body of the [for] of [update_loop]. *)
Definition handle_event (screenshot_dir : string) (ev : ScheduleEntry) : M unit :=
  try_except
    (match what ev with
     | REFRESH =>
         managed_browser screenshot_dir (ext (action REFRESH)) ;;
         t <- time ;;
         tracker_write (UpdateTracker.login t)
     | UPDATE =>
         managed_browser screenshot_dir
           (try_except (ext (action UPDATE))
                       (fun exc => if is_WebDriverException exc
                                   then Some (raise exc) else None)) ;;
         t <- time ;;
         tracker_write (UpdateTracker.update t)
     end)
    event_handler.

(** [for ev in Scheduler(last_login, last_update)], from the [i]-th
    entry on; [fuel] bounds the number of entries taken and the turns of
    each wait.  The calls to the logger are left out. *)
Fixpoint event_loop (fuel : nat) (screenshot_dir : string)
         (schedule : nat -> option ScheduleEntry) (i : nat) : M unit :=
  match fuel with
  | O => fun w => (OutOfFuel, w)
  | S fuel' =>
      match schedule i with
      | None => ret tt
      | Some ev =>
          wall_clock_wait (S fuel') (when ev) B64.one ;;
          handle_event screenshot_dir ev ;;
          event_loop fuel' screenshot_dir schedule (S i)
      end
  end.

(** [update_loop(browser_factory, tracker, timeout)].  The generators of
    the scheduler start at the first [next]: each draws and then reads the
    clock.  [rnd] gives the draws of each generator. *)
Definition update_loop (fuel : nat) (screenshot_dir : string)
           (rnd : ScheduledEvent -> nat -> Z) : M unit :=
  last_update <- tracker_read UpdateTracker.last_update ;;
  last_login <- tracker_read UpdateTracker.last_login ;;
  now_refresh <- time ;;
  now_update <- time ;;
  event_loop fuel screenshot_dir
             (Scheduler.__next__
                last_login last_update
                (fun what => match what with
                             | REFRESH => now_refresh
                             | UPDATE => now_update
                             end)
                rnd)
             O.

End Program.

(** The diagnostic calls of the guard do not raise. *)
Definition diagnostics_ok (env : environment) : Prop :=
  forall tr,
    raises env tr current_url = None /\
    raises env tr get_cookies = None /\
    forall dir stamp, raises env tr (save_screenshot dir stamp) = None.

(** The events of [w'] that came after those of [w]. *)
Definition since (w w' : world) : list event :=
  drop (length (trace w)) (trace w').

(** The readings below [when] and the sleeps that follow them, for the
    turns of a wait. *)
Definition polls (precision : Z) (ts : list Z) : list event :=
  flat_map (fun t => [Clock t; Called (sleep precision) None]) ts.

(** ** Sample surroundings *)

(** Streams due at every whole second. *)
Definition every_second (token : ScheduledEvent) : nat -> ScheduleEntry :=
  fun p => {| when := Z.of_nat p * B64.one; what := token |}.

(** The weekly stream of a tracker that never saw an update, started at
    [1700000000] seconds with every draw at one half. *)
Definition weekly_from_epoch : nat -> ScheduleEntry :=
  Scheduler._event_stream UPDATE 0 604800 10 60 (1700000000 * B64.one)
                          (fun _ => 2 ^ 52).

(** Nothing raises and the clock stands at [t]. *)
Definition calm (t : Z) : environment :=
  {| raises := fun _ _ => None; clock := fun _ => t |}.

(** Only the call [c] raises, and it raises [e]. *)
Definition failing (c : call) (e : exn) : environment :=
  {| raises := fun _ c' =>
                 match c, c' with
                 | browser_new, browser_new
                 | current_url, current_url
                 | get_cookies, get_cookies => Some e
                 | action k, action k' =>
                     match k, k' with
                     | REFRESH, REFRESH | UPDATE, UPDATE => Some e
                     | _, _ => None
                     end
                 | _, _ => None
                 end;
     clock := fun _ => 0 |}.

(** The browser script raises [e] and then reading the URL raises [e']. *)
Definition failing_twice (e e' : exn) : environment :=
  {| raises := fun _ c =>
                 match c with
                 | action _ => Some e
                 | current_url => Some e'
                 | _ => None
                 end;
     clock := fun _ => 0 |}.

(** The browser script raises [e] and then the release raises [e']. *)
Definition failing_release (e e' : exn) : environment :=
  {| raises := fun _ c =>
                 match c with
                 | action _ => Some e
                 | quit => Some e'
                 | _ => None
                 end;
     clock := fun _ => 0 |}.

(** Two entries due at once: a refresh, then updates. *)
Definition refresh_then_update (i : nat) : option ScheduleEntry :=
  Some {| when := 0; what := match i with O => REFRESH | S _ => UPDATE end |}.

(** A world with nothing in its past and a newly opened tracker. *)
Definition fresh_world : world :=
  {| trace := []; db := UpdateTracker.__init__ None |}.

(** ** Further vocabulary *)

#[global] Instance ScheduledEvent_eq_dec : EqDecision ScheduledEvent.
Proof. solve_decision. Defined.

(** A sequence of writes to the tracker, oldest first. *)
Definition apply_records (ops : list (ScheduledEvent * Z)) (t : gmap string Z)
  : gmap string Z :=
  foldl (fun t' op => UpdateTracker.record (fst op) (snd op) t') t ops.

(** The times written for the kind [k]. *)
Definition recorded (k : ScheduledEvent) (ops : list (ScheduledEvent * Z)) : list Z :=
  snd <$> filter (fun op => fst op = k) ops.


(** The discipline of the browser sessions along a trace: a session is
    opened by a [browser_new] that returns and closed by [quit]; the
    scripts and the diagnostic calls need an open session, and opening and
    sleeping a closed one.  [session_ok o tr] is [None] when [tr] breaks
    the discipline from the state [o] (open or not), and the state after
    [tr] otherwise. *)
Fixpoint session_ok (o : bool) (tr : list event) : option bool :=
  match tr with
  | [] => Some o
  | Clock _ :: tr' => session_ok o tr'
  | Called browser_new None :: tr' => if o then None else session_ok true tr'
  | Called browser_new (Some _) :: tr' => if o then None else session_ok false tr'
  | Called quit _ :: tr' => if o then session_ok false tr' else None
  | Called (sleep _) _ :: tr' => if o then None else session_ok false tr'
  | Called _ _ :: tr' => if o then session_ok true tr' else None
  end.

(** The kinds of the browser scripts run along a trace, in order. *)
Definition actions (tr : list event) : list ScheduledEvent :=
  omap (fun ev => match ev with
                  | Called (action k) _ => Some k
                  | _ => None
                  end) tr.

(** The entries [i], ..., [i + n - 1] of a schedule. *)
Definition entries (schedule : nat -> option ScheduleEntry) (i n : nat)
  : list ScheduleEntry :=
  omap schedule (seq i n).

(** The events that the guard adds between the script and [quit]. *)
Definition is_diagnostic (ev : event) : bool :=
  match ev with
  | Clock _ => true
  | Called current_url _ => true
  | Called get_cookies _ => true
  | Called (save_screenshot _ _) _ => true
  | _ => false
  end.

(** The events of a wait. *)
Definition is_poll (ev : event) : bool :=
  match ev with
  | Clock _ => true
  | Called (sleep _) _ => true
  | _ => false
  end.

(** ** The browser scripts

    [update], [refresh] and [login] drive the browser.  The calls they
    make, the page they see and the draws of [random()] are those of
    their surroundings, given all that has happened before. *)
Module Scripts.

Definition RESUME_LIST_URL : string :=
  "https://www.work.ua/ru/jobseeker/my/resumes/".
Definition RESUME_LIST_URL_PATTERN : string :=
  "^https://www\.work\.ua/(ru/)?jobseeker/my/resumes/?$".
Definition LOGIN_URL : string := "https://www.work.ua/jobseeker/login/".
Definition POST_LOGIN_URL_PATTERN : string :=
  "^https://www\.work\.ua/(ru/)?jobseeker/my/?$".
Definition CREATE_URL_PATTERN : string :=
  "^https://www.work.ua/(ru/)?jobseeker/my/resumes/create/?(\?.*)?$".
Definition UPDATE_BUTTON_XPATH : string :=
  "//a[contains(@href, '/update/expire_date')]".
Definition CREATE_BUTTON_XPATH : string :=
  "//a[contains(@href, '/jobseeker/my/resumes/create')]".
Definition REFRESH_WAIT : Z := 10.

(** An element is named by its index in the list that the last
    [find_elements_by_xpath] returned; the element that a wait for
    visibility returns has the index [0]. *)
Inductive browser_call :=
| browser_get (url : string)
| find_elements_by_xpath (xpath : string)
| get_attribute (elem : nat) (name : string)
| script_sleep (seconds : Z)
| click (elem : nat)
| until_staleness_of (elem : nat)
| until_url_matches (pattern : string)
| until_visibility_of_element_located (xpath : string).

(** What has happened so far, oldest first: the calls, each with the
    exception it raised if it did, and what the page and [random()]
    returned. *)
Inductive step :=
| Did (c : browser_call) (raised : option exn)
| Found (n : nat)
| Attribute (value : option string)
| Drew (k : Z).

Record page := {
  fails : list step -> browser_call -> option exn;
  found : list step -> nat;
  attribute : list step -> nat -> option string;
  draw : list step -> Z
}.

Definition B (A : Type) : Type := list step -> res A * list step.

Definition unit_ {A} (a : A) : B A := fun tr => (Ret a, tr).

Definition then_ {A C} (m : B A) (k : A -> B C) : B C :=
  fun tr =>
    match m tr with
    | (Ret a, tr') => k a tr'
    | (Raise e, tr') => (Raise e, tr')
    | (OutOfFuel, tr') => (OutOfFuel, tr')
    end.

Declare Scope script_scope.
Delimit Scope script_scope with script.
Notation "x <- m ;; k" := (then_ m (fun x => k))
  (at level 100, m at next level, right associativity) : script_scope.
Notation "m ;; k" := (then_ m (fun _ => k))
  (at level 100, right associativity) : script_scope.

Section WithPage.
Variable pg : page.

Local Open Scope script_scope.

(** A call to the browser, which may raise. *)
Definition perform (c : browser_call) : B unit :=
  fun tr =>
    match fails pg tr c with
    | None => (Ret tt, tr ++ [Did c None])
    | Some e => (Raise e, tr ++ [Did c (Some e)])
    end.

(** [browser.find_elements_by_xpath(xpath)]: the number of elements. *)
Definition find_elements (xpath : string) : B nat :=
  perform (find_elements_by_xpath xpath) ;;
  fun tr => (Ret (found pg tr), tr ++ [Found (found pg tr)]).

(** [elem.get_attribute("href")]: the value, or [None]. *)
Definition href_of (elem : nat) : B (option string) :=
  perform (get_attribute elem "href") ;;
  fun tr => (Ret (attribute pg tr elem), tr ++ [Attribute (attribute pg tr elem)]).

(** [random()] *)
Definition random : B Z :=
  fun tr => (Ret (draw pg tr), tr ++ [Drew (draw pg tr)]).

(** The [for] of [update] over the elements [j], ..., [j + n - 1]:
    [Some] of the new set of visited URLs when it leaves by [break], after
    a click, and [None] when it comes to its [else]. *)
Fixpoint for_elements (n j : nat) (visited_urls : gset (option string))
  : B (option (gset (option string))) :=
  match n with
  | O => unit_ None
  | S n' =>
      href <- href_of j ;;
      if decide (href ∈ visited_urls)
      then for_elements n' (S j) visited_urls
      else
        k <- random ;;
        perform (script_sleep
                   (B64.add (B64.of_int 1) (B64.mul (B64.of_int 2) (random_of k)))) ;;
        perform (click j) ;;
        perform (until_staleness_of j) ;;
        perform (until_url_matches RESUME_LIST_URL_PATTERN) ;;
        unit_ (Some ({[href]} ∪ visited_urls))
  end.

(** The [while True] of [update]; [fuel] bounds its turns. *)
Fixpoint while_true (fuel : nat) (visited_urls : gset (option string)) : B unit :=
  match fuel with
  | O => fun tr => (OutOfFuel, tr)
  | S fuel' =>
      n <- find_elements UPDATE_BUTTON_XPATH ;;
      r <- for_elements n O visited_urls ;;
      match r with
      | Some visited_urls' => while_true fuel' visited_urls'
      | None => unit_ tt
      end
  end.

(** [update(browser, timeout)] *)
Definition update (fuel : nat) : B unit :=
  perform (browser_get RESUME_LIST_URL) ;;
  while_true fuel ∅.

(** [login(browser, timeout)] *)
Definition login : B unit :=
  perform (browser_get LOGIN_URL) ;;
  perform (until_url_matches POST_LOGIN_URL_PATTERN) ;;
  perform (script_sleep (B64.of_int REFRESH_WAIT)).

(** [refresh(browser, timeout)] *)
Definition refresh : B unit :=
  perform (browser_get RESUME_LIST_URL) ;;
  perform (until_visibility_of_element_located CREATE_BUTTON_XPATH) ;;
  perform (click O) ;;
  perform (until_url_matches CREATE_URL_PATTERN) ;;
  perform (script_sleep (B64.of_int REFRESH_WAIT)).

End WithPage.

(** The calls of [login] and of [refresh], in order. *)
Definition login_calls : list browser_call :=
  [browser_get LOGIN_URL;
   until_url_matches POST_LOGIN_URL_PATTERN;
   script_sleep (B64.of_int REFRESH_WAIT)].

Definition refresh_calls : list browser_call :=
  [browser_get RESUME_LIST_URL;
   until_visibility_of_element_located CREATE_BUTTON_XPATH;
   click O;
   until_url_matches CREATE_URL_PATTERN;
   script_sleep (B64.of_int REFRESH_WAIT)].

(** A run that makes the calls of [calls] in order, up to the first that
    raises: all of them when it returns. *)
Definition in_order (calls : list browser_call) (r : res unit) (new : list step)
  : Prop :=
  exists n,
    match r with
    | Ret _ => n = length calls /\ new = (fun c => Did c None) <$> calls
    | Raise e =>
        exists c, calls !! n = Some c /\
                  new = ((fun c => Did c None) <$> take n calls) ++ [Did c (Some e)]
    | OutOfFuel => False
    end.

(** A page that always shows the same single link, with calls that never
    raise. *)
Definition one_link_page : page :=
  {| fails := fun _ _ => None;
     found := fun _ => 1%nat;
     attribute := fun _ _ => Some "/update/expire_date/1";
     draw := fun _ => 0 |}.

(** A delay between one and three seconds. *)
Definition in_delay_range (d : Z) : Prop := B64.one <= d <= 3 * B64.one.

(** The URLs of the links clicked along a trace: each click is on the
    element whose [href] was read last.  [h] is the [href] read last
    before the trace. *)
Fixpoint clicks_from (h : option string) (tr : list step)
  : list (option string) :=
  match tr with
  | [] => []
  | Attribute s :: tr' => clicks_from s tr'
  | Did (click _) _ :: tr' => h :: clicks_from h tr'
  | _ :: tr' => clicks_from h tr'
  end.

Definition clicks (tr : list step) : list (option string) :=
  clicks_from None tr.

(** The [href]s read along a trace. *)
Definition hrefs_read (tr : list step) : list (option string) :=
  omap (fun s => match s with Attribute v => Some v | _ => None end) tr.

(** The exceptions raised along a trace. *)
Definition failures (tr : list step) : list exn :=
  omap (fun s => match s with Did _ (Some e) => Some e | _ => None end) tr.

(** What a run of a script may add to the trace: at most one exception,
    which is then the outcome of the script and the last thing that
    happened. *)
Definition stops_at_failure {A} (r : res A) (new : list step) : Prop :=
  failures new = match r with Raise e => [e] | _ => [] end /\
  forall e, r = Raise e -> exists pre c, new = pre ++ [Did c (Some e)].

(** The lengths of the sleeps along a trace. *)
Definition sleeps (tr : list step) : list Z :=
  omap (fun s => match s with Did (script_sleep d) _ => Some d | _ => None end) tr.

(** No call raises, every draw is one of [random()], and the page shows
    no link but those of [links]. *)
Definition quiet (pg : page) : Prop := forall tr c, fails pg tr c = None.

Definition fair (pg : page) : Prop := forall tr, is_draw (draw pg tr).

Definition shows_only (pg : page) (links : gset (option string)) : Prop :=
  forall tr j, attribute pg tr j ∈ links.

End Scripts.

(* ===================================================================== *)
(** * Part II: properties                                                  *)
(* ===================================================================== *)

(** ** Rounding to binary64 *)

Module B64Facts.
Import B64.

Lemma fexp_nonneg a : 0 <= fexp a.
Proof. unfold fexp. lia. Qed.

Lemma fexp_mono a b : a <= b -> fexp a <= fexp b.
Proof. intros H. unfold fexp. pose proof (Z.log2_le_mono a b H). lia. Qed.

Lemma spacing_pos a : 0 < 2 ^ fexp a.
Proof. apply Z.pow_pos_nonneg; [lia | apply fexp_nonneg]. Qed.

Lemma log2_pos_inv a : 0 < Z.log2 a -> 0 < a.
Proof.
  intros H. destruct (Z.le_gt_cases a 0) as [Hn | Hp]; [| lia].
  rewrite (Z.log2_nonpos a Hn) in H. lia.
Qed.

Lemma rne_lower n d k : 0 < d -> k * d <= n -> k <= rne n d.
Proof.
  intros Hd Hk.
  assert (k <= n / d) by (apply Z.div_le_lower_bound; lia).
  unfold rne. repeat match goal with |- context [if ?b then _ else _] => destruct b end; lia.
Qed.

Lemma rne_upper n d k : 0 < d -> n <= k * d -> rne n d <= k.
Proof.
  intros Hd Hk.
  pose proof (Z.div_mod n d ltac:(lia)) as E.
  pose proof (Z.mod_pos_bound n d Hd) as B.
  assert (n / d <= k) by nia.
  assert (2 * (n mod d) < d \/ n / d + 1 <= k) as [C | C].
  { destruct (Z.eq_dec (n / d) k) as [Ek | ?]; [left | right; lia].
    rewrite Ek in E. assert (n mod d = 0) by lia. lia. }
  - unfold rne. apply Z.ltb_lt in C. rewrite C. lia.
  - unfold rne. repeat match goal with |- context [if ?b then _ else _] => destruct b end; lia.
Qed.

Lemma rne_nonneg n d : 0 <= n -> 0 < d -> 0 <= rne n d.
Proof. intros. apply rne_lower; lia. Qed.


Lemma round_nonneg_eq n d :
  0 <= n -> 0 < d ->
  round n d = 2 ^ fexp (n / d) * rne n (d * 2 ^ fexp (n / d)).
Proof.
  intros Hn Hd. unfold round. rewrite (Z.abs_eq n) by lia.
  destruct (Z.eq_dec n 0) as [-> | Hne].
  - pose proof (spacing_pos (0 / d)) as Hq.
    unfold rne. rewrite !Zdiv_0_l, !Zmod_0_l in *.
    replace (2 * 0 <? d * 2 ^ fexp 0) with true by (symmetry; apply Z.ltb_lt; nia).
    simpl. lia.
  - rewrite Z.sgn_pos by lia. lia.
Qed.

Lemma round_opp n d : round (- n) d = - round n d.
Proof. unfold round. rewrite Z.abs_opp, Z.sgn_opp. lia. Qed.

Lemma round_nonneg n d : 0 <= n -> 0 < d -> 0 <= round n d.
Proof.
  intros Hn Hd. rewrite round_nonneg_eq by lia.
  pose proof (spacing_pos (n / d)).
  apply Z.mul_nonneg_nonneg; [lia | apply rne_nonneg; nia].
Qed.

Lemma is_b64_opp x : is_b64 (- x) = is_b64 x.
Proof. unfold is_b64. now rewrite Z.abs_opp. Qed.

Lemma is_b64_nonneg x : 0 <= x -> is_b64 x = true -> x mod 2 ^ fexp x = 0.
Proof. intros Hx H. unfold is_b64 in H. rewrite Z.abs_eq in H by lia. lia. Qed.

(** A float below the exact value stays below the rounded value. *)
Lemma round_ge_nonneg lo n d :
  0 < d -> 0 <= lo -> is_b64 lo = true -> lo * d <= n -> lo <= round n d.
Proof.
  intros Hd Hlo Hb Hle.
  assert (Hn : 0 <= n) by nia.
  rewrite round_nonneg_eq by lia.
  set (a := n / d).
  assert (Ha : lo <= a) by (apply Z.div_le_lower_bound; lia).
  assert (Had : a * d <= n).
  { unfold a. pose proof (Z.mul_div_le n d Hd). lia. }
  pose proof (fexp_mono _ _ Ha) as He.
  pose proof (spacing_pos a) as Hq.
  pose proof (is_b64_nonneg _ Hlo Hb) as Hm.
  destruct (Z.eq_dec (fexp lo) (fexp a)) as [Eq | Ne].
  - rewrite Eq in Hm. apply Z.mod_divide in Hm; [| lia].
    destruct Hm as [c ->].
    rewrite (Z.mul_comm c). apply Z.mul_le_mono_nonneg_l; [lia |].
    apply rne_lower; nia.
  - assert (He' : fexp lo < fexp a) by lia.
    assert (Hl : 52 < Z.log2 a) by (unfold fexp in *; lia).
    assert (Hapos : 0 < a) by (apply log2_pos_inv; lia).
    assert (Hll : Z.log2 lo < Z.log2 a) by (unfold fexp in *; lia).
    assert (Hla : 2 ^ Z.log2 a <= a) by (apply Z.log2_spec; lia).
    assert (lo < 2 ^ Z.log2 a).
    { destruct (Z.eq_dec lo 0) as [-> | ?]; [apply Z.pow_pos_nonneg; lia |].
      pose proof (Z.log2_spec lo ltac:(lia)) as [_ Hs].
      eapply Z.lt_le_trans; [exact Hs |]. apply Z.pow_le_mono_r; lia. }
    assert (E : 2 ^ Z.log2 a = 2 ^ fexp a * 2 ^ 52).
    { rewrite <- Z.pow_add_r by (unfold fexp; lia). f_equal. unfold fexp. lia. }
    assert (2 ^ 52 <= rne n (d * 2 ^ fexp a)).
    { apply rne_lower; [nia |]. nia. }
    nia.
Qed.

(** A float above the exact value stays above the rounded value. *)
Lemma round_le_nonneg hi n d :
  0 < d -> 0 <= n -> is_b64 hi = true -> n <= hi * d -> round n d <= hi.
Proof.
  intros Hd Hn Hb Hle.
  assert (Hhi : 0 <= hi) by nia.
  rewrite round_nonneg_eq by lia.
  set (a := n / d).
  assert (Ha0 : 0 <= a) by (apply Z.div_pos; lia).
  assert (Ha : a <= hi).
  { unfold a. apply Z.div_le_upper_bound; lia. }
  assert (Had : n < (a + 1) * d).
  { unfold a. pose proof (Z.div_mod n d ltac:(lia)). pose proof (Z.mod_pos_bound n d Hd). nia. }
  pose proof (fexp_mono _ _ Ha) as He.
  pose proof (spacing_pos a) as Hq.
  pose proof (is_b64_nonneg _ Hhi Hb) as Hm.
  destruct (Z.eq_dec (fexp a) (fexp hi)) as [Eq | Ne].
  - rewrite <- Eq in Hm. apply Z.mod_divide in Hm; [| lia].
    destruct Hm as [c Hc]. rewrite Hc, (Z.mul_comm c).
    apply Z.mul_le_mono_nonneg_l; [lia |].
    apply rne_upper; nia.
  - assert (Hl : 52 < Z.log2 hi) by (unfold fexp in *; lia).
    assert (Hhpos : 0 < hi) by (apply log2_pos_inv; lia).
    assert (Hll : Z.log2 a < Z.log2 hi) by (unfold fexp in *; lia).
    pose proof (Z.log2_nonneg a) as Hl0.
    assert (Hlh : 2 ^ Z.log2 hi <= hi) by (apply Z.log2_spec; lia).
    assert (Hp : a + 1 <= 2 ^ (Z.log2 a + 1)).
    { destruct (Z.eq_dec a 0) as [E0 | ?].
      - rewrite E0. simpl. lia.
      - pose proof (Z.log2_spec a ltac:(lia)) as [_ Hs]. unfold Z.succ in Hs. lia. }
    assert (Hph : 2 ^ (Z.log2 a + 1) <= 2 ^ Z.log2 hi) by (apply Z.pow_le_mono_r; lia).
    assert (E : 2 ^ (Z.log2 a + 1) = 2 ^ fexp a * 2 ^ (Z.log2 a + 1 - fexp a)).
    { rewrite <- Z.pow_add_r by (unfold fexp; lia). f_equal. lia. }
    assert (rne n (d * 2 ^ fexp a) <= 2 ^ (Z.log2 a + 1 - fexp a)).
    { apply rne_upper; [nia |]. nia. }
    nia.
Qed.

Lemma round_ge lo n d :
  0 < d -> is_b64 lo = true -> lo * d <= n -> lo <= round n d.
Proof.
  intros Hd Hb Hle.
  destruct (Z.le_gt_cases 0 n) as [Hn | Hn].
  - destruct (Z.le_gt_cases 0 lo) as [Hl | Hl].
    + now apply round_ge_nonneg.
    + pose proof (round_nonneg n d Hn Hd). lia.
  - replace n with (- - n) by lia. rewrite round_opp.
    assert (round (- n) d <= - lo); [| lia].
    apply round_le_nonneg; [lia | lia | now rewrite is_b64_opp | lia].
Qed.

Lemma round_le hi n d :
  0 < d -> is_b64 hi = true -> n <= hi * d -> round n d <= hi.
Proof.
  intros Hd Hb Hle.
  assert (- hi <= round (- n) d).
  { apply round_ge; [lia | now rewrite is_b64_opp | lia]. }
  rewrite round_opp in H. lia.
Qed.

(** Rounding leaves a float unchanged. *)
Lemma round_id x : is_b64 x = true -> round x 1 = x.
Proof.
  intros Hb. apply Z.le_antisymm.
  - apply round_le; [lia | exact Hb | lia].
  - apply round_ge; [lia | exact Hb | lia].
Qed.

(** Significands of at most 53 bits give floats. *)
Lemma is_b64_mk m e : 0 <= e -> Z.abs m <= 2 ^ 53 -> is_b64 (m * 2 ^ e) = true.
Proof.
  intros He Hm. unfold is_b64. apply Z.eqb_eq.
  rewrite Z.abs_mul, (Z.abs_eq (2 ^ e)) by (apply Z.pow_nonneg; lia).
  set (a := Z.abs m) in *.
  destruct (Z.eq_dec a 0) as [-> | Ha]; [apply Zmod_0_l |].
  assert (Hapos : 0 < a) by (unfold a in *; lia).
  rewrite Z.mod_divide by (pose proof (spacing_pos (a * 2 ^ e)); lia).
  assert (Hlog : Z.log2 (a * 2 ^ e) = e + Z.log2 a) by (apply Z.log2_mul_pow2; lia).
  pose proof (Z.log2_nonneg a) as Hl0.
  destruct (Z.eq_dec a (2 ^ 53)) as [E | NE].
  - rewrite E, <- Z.pow_add_r by lia.
    unfold fexp. rewrite Z.log2_pow2 by lia.
    exists (2 ^ 52). rewrite <- Z.pow_add_r by lia. f_equal. lia.
  - assert (Z.log2 a < 53).
    { apply Z.log2_lt_pow2; lia. }
    unfold fexp. rewrite Hlog.
    exists (a * 2 ^ (e - Z.max 0 (e + Z.log2 a - 52))).
    rewrite <- Z.mul_assoc, <- Z.pow_add_r by lia. do 2 f_equal. lia.
Qed.

Lemma round_is_b64 n d : 0 < d -> is_b64 (round n d) = true.
Proof.
  intros Hd.
  assert (forall n, 0 <= n -> is_b64 (round n d) = true) as Hpos.
  { clear n. intros n Hn. rewrite round_nonneg_eq by lia.
    set (a := n / d).
    assert (Ha0 : 0 <= a) by (apply Z.div_pos; lia).
    assert (Had : a * d <= n < (a + 1) * d).
    { unfold a. pose proof (Z.div_mod n d ltac:(lia)). pose proof (Z.mod_pos_bound n d Hd). nia. }
    pose proof (spacing_pos a) as Hq. pose proof (fexp_nonneg a) as He.
    rewrite Z.mul_comm. apply is_b64_mk; [exact He |].
    rewrite Z.abs_eq by (apply rne_nonneg; nia).
    apply rne_upper; [nia |].
    assert (a + 1 <= 2 ^ 53 * 2 ^ fexp a); [| nia].
    rewrite <- Z.pow_add_r by lia.
    destruct (Z.eq_dec a 0) as [E0 | ?].
    - rewrite E0. vm_compute. discriminate.
    - pose proof (Z.log2_spec a ltac:(lia)) as [_ Hs]. unfold Z.succ in Hs.
      assert (2 ^ (Z.log2 a + 1) <= 2 ^ (53 + fexp a)); [| lia].
      apply Z.pow_le_mono_r; [lia |]. unfold fexp. lia. }
  destruct (Z.le_gt_cases 0 n) as [Hn | Hn]; [now apply Hpos |].
  replace n with (- - n) by lia. rewrite round_opp, is_b64_opp. apply Hpos. lia.
Qed.

Lemma is_b64_int n : Z.abs n <= 2 ^ 53 -> is_b64 (n * one) = true.
Proof. intros H. unfold one. apply is_b64_mk; [lia | exact H]. Qed.

Lemma of_int_exact n : Z.abs n <= 2 ^ 53 -> of_int n = n * one.
Proof. intros H. unfold of_int. apply round_id, is_b64_int, H. Qed.

Lemma one_pos : 0 < one.
Proof. unfold one. apply Z.pow_pos_nonneg; lia. Qed.

End B64Facts.

(** The operations agree with [SpecFloat] where the properties below
    compute with them. *)
Example mul_agrees_with_ieee :
  of_spec (SFmul 53 1024 (ieee (2 ^ 53 - 1) (-53)) (ieee 50 0))
  = Some (B64.mul (random_of (2 ^ 53 - 1)) (B64.of_int 50)).
Proof. vm_compute. reflexivity. Qed.

Example add_agrees_with_ieee :
  of_spec (SFadd 53 1024 (ieee 604810 0)
                 (SFmul 53 1024 (ieee (2 ^ 53 - 1) (-53)) (ieee 50 0)))
  = Some (random_interval 604800 10 60 (2 ^ 53 - 1)).
Proof. vm_compute. reflexivity. Qed.

Example absorption_agrees_with_ieee :
  of_spec (SFadd 53 1024 (ieee (2 ^ 70) 0) (ieee 3610 0))
  = Some (B64.add (2 ^ 70 * B64.one) (random_interval 3600 10 60 0)).
Proof. vm_compute. reflexivity. Qed.

(** ** Randomised intervals *)

Lemma random_of_range k : is_draw k -> 0 <= random_of k < B64.one.
Proof.
  unfold is_draw, random_of, B64.one. intros [H0 H1].
  change (2 ^ 1074) with (2 ^ 53 * 2 ^ 1021).
  assert (0 < 2 ^ 1021) by (apply Z.pow_pos_nonneg; lia). nia.
Qed.

(** The product with a draw lies between zero and the other factor. *)
Lemma mul_draw_range k c :
  is_draw k -> 0 <= c -> B64.is_b64 c = true ->
  0 <= B64.mul (random_of k) c <= c.
Proof.
  intros Hk Hc Hb. pose proof (random_of_range k Hk) as Hu.
  pose proof B64Facts.one_pos as H1. unfold B64.mul. split.
  - apply B64Facts.round_nonneg; [nia | lia].
  - apply B64Facts.round_le; [lia | exact Hb | nia].
Qed.

Lemma random_interval_bounds B m M k :
  m < M -> Z.abs (B + m) <= 2 ^ 53 -> Z.abs (B + M) <= 2 ^ 53 ->
  M - m <= 2 ^ 53 -> is_draw k ->
  (B + m) * B64.one <= random_interval B m M k <= (B + M) * B64.one.
Proof.
  intros Hlt Hlo Hhi Hd Hk. unfold random_interval.
  rewrite !B64Facts.of_int_exact by lia.
  assert (Hc : B64.is_b64 ((M - m) * B64.one) = true)
    by (apply B64Facts.is_b64_int; lia).
  pose proof B64Facts.one_pos as H1.
  pose proof (mul_draw_range k ((M - m) * B64.one) Hk ltac:(nia) Hc) as [Hp0 Hp1].
  unfold B64.add. split.
  - apply B64Facts.round_ge; [lia | apply B64Facts.is_b64_int; lia | lia].
  - apply B64Facts.round_le; [lia | apply B64Facts.is_b64_int; lia | lia].
Qed.

Lemma random_interval_zero B m M :
  Z.abs (B + m) <= 2 ^ 53 -> Z.abs (M - m) <= 2 ^ 53 ->
  random_interval B m M 0 = (B + m) * B64.one.
Proof.
  intros Hlo Hd. unfold random_interval, random_of.
  rewrite !B64Facts.of_int_exact by lia.
  unfold B64.mul. rewrite Z.mul_0_l.
  change (B64.round 0 B64.one) with 0. unfold B64.add. rewrite Z.add_0_r.
  apply B64Facts.round_id, B64Facts.is_b64_int; lia.
Qed.

(** At the last draw below one, the interval of the weekly update is the
    upper bound itself. *)
Example random_interval_top :
  random_interval 604800 10 60 (2 ^ 53 - 1) = B64.of_int 604860.
Proof. vm_compute. reflexivity. Qed.

(** C10, as stated, fails: with the constants of the weekly update and the
    largest draw [random()] can make, [1 - 2^-53], the interval is not
    below [base + max_drift]: the sum rounds to the bound itself. *)
Lemma random_interval_reaches_upper_bound :
  UPDATE_INTERVAL_MIN_DRIFT < UPDATE_INTERVAL_MAX_DRIFT /\
  is_draw (2 ^ 53 - 1) /\
  ~ random_interval UPDATE_INTERVAL UPDATE_INTERVAL_MIN_DRIFT
                    UPDATE_INTERVAL_MAX_DRIFT (2 ^ 53 - 1)
    < (UPDATE_INTERVAL + UPDATE_INTERVAL_MAX_DRIFT) * B64.one.
Proof.
  split; [reflexivity |]. split; [unfold is_draw; lia |].
  vm_compute. intros H. discriminate H.
Qed.

(** C10, amended: for integer [base], [min_drift] and [max_drift] that
    convert to floats exactly and [max_drift > min_drift], the interval lies
    in the closed range from [base + min_drift] to [base + max_drift]; the
    draw [0] gives the lower bound. *)
Theorem random_interval_closed_range B m M k :
  m < M -> Z.abs (B + m) <= 2 ^ 53 -> Z.abs (B + M) <= 2 ^ 53 ->
  M - m <= 2 ^ 53 -> is_draw k ->
  (B + m) * B64.one <= random_interval B m M k <= (B + M) * B64.one /\
  random_interval B m M 0 = (B + m) * B64.one.
Proof.
  intros Hlt Hlo Hhi Hd Hk. split.
  - now apply random_interval_bounds.
  - apply random_interval_zero; lia.
Qed.

Lemma random_interval_closed_range_witness :
  ((3600 + 10) * B64.one <= random_interval 3600 10 60 (2 ^ 52)
   <= (3600 + 60) * B64.one) /\
  random_interval 3600 10 60 0 = (3600 + 10) * B64.one.
Proof.
  apply (random_interval_closed_range 3600 10 60 (2 ^ 52));
    unfold is_draw; lia.
Defined.

(** ** Event streams *)

Lemma add_ge x y : B64.is_b64 x = true -> 0 <= y -> x <= B64.add x y.
Proof.
  intros Hb Hy. unfold B64.add. apply B64Facts.round_ge; [lia | exact Hb | lia].
Qed.

(** Below [2^53] seconds an interval of a second or more moves the time. *)
Lemma add_gt t r :
  Z.abs t < 2 ^ 53 * B64.one -> B64.one <= r -> t < B64.add t r.
Proof.
  intros Ht Hr. pose proof B64Facts.one_pos as H1.
  set (j := t / B64.one + 1).
  pose proof (Z.div_mod t B64.one ltac:(lia)) as E.
  pose proof (Z.mod_pos_bound t B64.one H1) as Hm.
  assert (Hj : Z.abs j <= 2 ^ 53).
  { assert (- 2 ^ 53 <= t / B64.one).
    { apply Z.div_le_lower_bound; lia. }
    assert (t / B64.one < 2 ^ 53).
    { apply Z.div_lt_upper_bound; lia. }
    unfold j. lia. }
  assert (j * B64.one <= B64.add t r).
  { unfold B64.add. apply B64Facts.round_ge;
      [lia | now apply B64Facts.is_b64_int | unfold j; nia]. }
  unfold j in *. nia.
Qed.

Lemma max_is_b64 x y :
  B64.is_b64 x = true -> B64.is_b64 y = true -> B64.is_b64 (B64.max x y) = true.
Proof. intros Hx Hy. unfold B64.max. now destruct (B64.ltb x y). Qed.

Lemma add_is_b64 x y : B64.is_b64 (B64.add x y) = true.
Proof. unfold B64.add. apply B64Facts.round_is_b64. lia. Qed.

Lemma event_time_is_b64 T0 B m M N rnd n :
  B64.is_b64 N = true -> B64.is_b64 (Scheduler.event_time T0 B m M N rnd n) = true.
Proof.
  intros HN. destruct n; simpl.
  - apply max_is_b64; [apply add_is_b64 | exact HN].
  - apply add_is_b64.
Qed.

(** C1, as stated, fails: from a last success of [2^70] seconds the
    hourly stream yields the same time twice, the interval being less than
    half the spacing of the floats there. *)
Lemma event_stream_stalls :
  let s := Scheduler._event_stream
             REFRESH (2 ^ 70 * B64.one) SESSION_REFRESH_INTERVAL
             SESSION_REFRESH_INTERVAL_MIN_DRIFT
             SESSION_REFRESH_INTERVAL_MAX_DRIFT
             (1700000000 * B64.one) (fun _ => 0) in
  B64.is_b64 (2 ^ 70 * B64.one) = true /\ is_draw 0 /\
  ~ when (s 0%nat) < when (s 1%nat).
Proof.
  split; [vm_compute; reflexivity |]. split; [unfold is_draw; lia |].
  vm_compute. intros H. discriminate H.
Qed.

(** C1, amended: for integer [base > 0] and [max_drift > min_drift >= 0]
    with [base + max_drift <= 2^53], the first time is
    [max(T0 + r, N)] and every later time is the previous one plus a fresh
    [r'], the sums being those of floats and [r], [r'] lying in the closed
    range from [base + min_drift] to [base + max_drift]; the times never
    decrease, and they increase strictly as long as they are below [2^53]
    seconds in magnitude. *)
Theorem event_stream_schedule token T0 B m M N rnd :
  0 < B -> 0 <= m < M -> B + M <= 2 ^ 53 ->
  (forall i, is_draw (rnd i)) -> B64.is_b64 N = true ->
  let s := Scheduler._event_stream token T0 B m M N rnd in
  let r := fun i => random_interval B m M (rnd i) in
  (forall i, (B + m) * B64.one <= r i <= (B + M) * B64.one) /\
  when (s O) = B64.max (B64.add T0 (r O)) N /\
  (forall n, when (s (S n)) = B64.add (when (s n)) (r (S n))) /\
  (forall n, what (s n) = token) /\
  (forall n, when (s n) <= when (s (S n))) /\
  (forall n, Z.abs (when (s n)) < 2 ^ 53 * B64.one ->
             when (s n) < when (s (S n))).
Proof.
  intros HB Hm HM Hrnd HN s r.
  assert (Hr : forall i, (B + m) * B64.one <= r i <= (B + M) * B64.one).
  { intros i. apply random_interval_bounds; try lia. apply Hrnd. }
  pose proof B64Facts.one_pos as H1.
  repeat split; try reflexivity; try apply Hr.
  - intros n. simpl. apply add_ge; [now apply event_time_is_b64 |].
    specialize (Hr (S n)). fold (r (S n)). nia.
  - intros n Hn. simpl. apply add_gt; [exact Hn |].
    specialize (Hr (S n)). fold (r (S n)). nia.
Qed.

Lemma event_stream_schedule_witness :
  (forall i : nat,
      (604800 + 10) * B64.one
      <= random_interval 604800 10 60 ((fun _ : nat => 2 ^ 52) i)
      <= (604800 + 60) * B64.one) /\
  when (weekly_from_epoch O)
  = B64.max (B64.add 0 (random_interval 604800 10 60 (2 ^ 52)))
            (1700000000 * B64.one) /\
  (forall n, when (weekly_from_epoch (S n))
             = B64.add (when (weekly_from_epoch n))
                       (random_interval 604800 10 60 (2 ^ 52))) /\
  (forall n, what (weekly_from_epoch n) = UPDATE) /\
  (forall n, when (weekly_from_epoch n) <= when (weekly_from_epoch (S n))) /\
  (forall n, Z.abs (when (weekly_from_epoch n)) < 2 ^ 53 * B64.one ->
             when (weekly_from_epoch n) < when (weekly_from_epoch (S n))).
Proof.
  apply (event_stream_schedule UPDATE 0 604800 10 60
           (1700000000 * B64.one) (fun _ => 2 ^ 52)).
  - lia.
  - lia.
  - lia.
  - intros _. unfold is_draw. lia.
  - vm_compute. reflexivity.
Defined.

(** The stream above is clamped to its start, and its second time lies
    between [604810] and [604860] seconds later. *)
Example weekly_from_epoch_times :
  when (weekly_from_epoch 0%nat) = 1700000000 * B64.one /\
  (1700000000 + 604810) * B64.one <= when (weekly_from_epoch 1%nat)
  <= (1700000000 + 604860) * B64.one.
Proof. vm_compute. repeat split; discriminate. Qed.

(** ** The merge *)

Section MergeFacts.
Context {A : Type} (key : A -> Z).

Lemma heap_top_cons (k k1 : Z) (keys : list Z) :
  heap_top (k :: k1 :: keys) =
  match (k1 :: keys) !! heap_top (k1 :: keys) with
  | Some k' => if k' <? k then S (heap_top (k1 :: keys)) else O
  | None => O
  end.
Proof. reflexivity. Qed.

Lemma heap_top_spec (keys : list Z) :
  keys <> [] ->
  exists k, keys !! heap_top keys = Some k /\
            (forall j kj, keys !! j = Some kj -> k <= kj) /\
            (forall j kj, (j < heap_top keys)%nat -> keys !! j = Some kj -> k < kj).
Proof.
  induction keys as [| k keys IH]; [congruence |]. intros _.
  destruct keys as [| k1 keys'].
  - exists k. simpl. split; [reflexivity |]. split.
    + intros [| j] kj Hj; simpl in Hj; [injection Hj; lia | destruct j; discriminate].
    + intros j kj Hlt. lia.
  - destruct (IH ltac:(congruence)) as (k' & Hk' & Hall & Hbefore).
    rewrite heap_top_cons, Hk'.
    destruct (k' <? k) eqn:E.
    + apply Z.ltb_lt in E. exists k'. split; [exact Hk' |]. split.
      * intros [| j] kj Hj; simpl in Hj; [injection Hj; lia | now apply (Hall j)].
      * intros [| j] kj Hlt Hj; simpl in Hj; [injection Hj; lia |].
        apply (Hbefore j); [lia | exact Hj].
    + apply Z.ltb_ge in E. exists k. split; [reflexivity |]. split.
      * intros [| j] kj Hj; simpl in Hj; [injection Hj; lia |].
        specialize (Hall j kj Hj). lia.
      * intros j kj Hlt. lia.
Qed.

Lemma nondecreasing_le it p q :
  nondecreasing key it -> (p <= q)%nat -> key (it p) <= key (it q).
Proof.
  intros Hm Hpq. induction Hpq as [| q _ IH]; [lia |].
  specialize (Hm q). lia.
Qed.

Lemma heap_keys_lookup its pos i (it : nat -> A) p :
  its !! i = Some it -> pos !! i = Some p ->
  heap_keys key its pos !! i = Some (key (it p)).
Proof.
  intros Hi Hp. unfold heap_keys. rewrite lookup_zip_with, Hi. simpl. now rewrite Hp.
Qed.

Lemma heap_top_lookup its pos :
  its <> [] -> length pos = length its ->
  exists it p, its !! heap_top (heap_keys key its pos) = Some it /\
               pos !! heap_top (heap_keys key its pos) = Some p.
Proof.
  intros Hne Hlen.
  assert (Hk : heap_keys key its pos <> []).
  { destruct its, pos; simpl in *; congruence. }
  destruct (heap_top_spec _ Hk) as (k & Hk' & _).
  unfold heap_keys in Hk' at 1. apply lookup_zip_with_Some in Hk'.
  destruct Hk' as (it & p & _ & Hi & Hp). eauto.
Qed.

Lemma merge_from_length its pos n :
  its <> [] -> length pos = length its ->
  length (merge_from key its pos n) = n.
Proof.
  intros Hne. revert pos. induction n as [| n IH]; intros pos Hlen; [reflexivity |].
  destruct (heap_top_lookup its pos Hne Hlen) as (it & p & Hi & Hp).
  simpl. rewrite Hi, Hp. simpl. f_equal. apply IH. now rewrite length_insert.
Qed.

Lemma merge_from_invariant its pos n :
  length pos = length its ->
  (forall it, it ∈ its -> nondecreasing key it) ->
  StronglySorted (merged_lt key) (merge_from key its pos n) /\
  Forall (pending its pos) (merge_from key its pos n).
Proof.
  intros Hlen Hmono. revert pos Hlen.
  induction n as [| n IH]; intros pos Hlen; [split; constructor |].
  simpl. set (i := heap_top (heap_keys key its pos)).
  destruct (its !! i) as [it |] eqn:Hi; [| split; constructor].
  destruct (pos !! i) as [p |] eqn:Hp; [| split; constructor].
  destruct (IH (<[i := S p]> pos)) as [Hs Hf]; [now rewrite length_insert |].
  assert (Hk : heap_keys key its pos <> []).
  { destruct its, pos; simpl in *; congruence. }
  destruct (heap_top_spec _ Hk) as (k & Hk' & Hall & Hbefore). fold i in Hk', Hbefore.
  rewrite (heap_keys_lookup its pos i it p Hi Hp) in Hk'. injection Hk' as <-.
  assert (Hit : nondecreasing key it).
  { apply Hmono. eapply list_elem_of_lookup_2. exact Hi. }
  split.
  - constructor; [exact Hs |].
    eapply Forall_impl; [exact Hf |]. intros y (ity & p0 & Hy & Hp0 & Hle & Hv).
    unfold merged_lt. simpl. rewrite Hv.
    destruct (Nat.eq_dec (order y) i) as [E | NE].
    + rewrite E in *. rewrite Hi in Hy. injection Hy as <-.
      rewrite list_lookup_insert_eq in Hp0 by (eapply lookup_lt_Some; exact Hp).
      injection Hp0 as <-.
      pose proof (nondecreasing_le it p (position y) Hit ltac:(lia)).
      assert (key (it p) < key (it (position y)) \/ key (it p) = key (it (position y))) as [? | ?] by lia.
      * now left.
      * right. split; [assumption |]. right. split; [reflexivity | lia].
    + rewrite list_lookup_insert_ne in Hp0 by congruence.
      assert (Hity : nondecreasing key ity).
      { apply Hmono. eapply list_elem_of_lookup_2. exact Hy. }
      pose proof (nondecreasing_le ity p0 (position y) Hity Hle) as Hge.
      pose proof (heap_keys_lookup its pos (order y) ity p0 Hy Hp0) as Hky.
      pose proof (Hall _ _ Hky) as Hmin.
      assert (key (it p) < key (ity (position y)) \/ key (it p) = key (ity (position y))) as [? | Heq] by lia.
      * now left.
      * right. split; [assumption |]. left.
        destruct (Nat.lt_ge_cases (order y) i) as [Hlt | Hge']; [| lia].
        specialize (Hbefore _ _ Hlt Hky). lia.
  - constructor.
    + exists it, p. simpl. repeat split; try assumption. lia.
    + eapply Forall_impl; [exact Hf |]. intros y (ity & p0 & Hy & Hp0 & Hle & Hv).
      destruct (Nat.eq_dec (order y) i) as [E | NE].
      * exists ity, p. rewrite E in *.
        rewrite list_lookup_insert_eq in Hp0 by (eapply lookup_lt_Some; exact Hp).
        injection Hp0 as <-. repeat split; try assumption. lia.
      * exists ity, p0. rewrite list_lookup_insert_ne in Hp0 by congruence.
        repeat split; assumption.
Qed.

Lemma StronglySorted_lookup {B} (R : B -> B -> Prop) (l : list B) i j x y :
  StronglySorted R l -> (i < j)%nat -> l !! i = Some x -> l !! j = Some y -> R x y.
Proof.
  intros Hs. revert i j. induction Hs as [| a l Hs IH Hall]; intros i j Hij Hx Hy.
  - discriminate.
  - destruct j as [| j]; [lia |]. simpl in Hy. destruct i as [| i].
    + simpl in Hx. injection Hx as <-.
      rewrite Forall_forall in Hall. apply Hall.
      eapply list_elem_of_lookup_2. exact Hy.
    + simpl in Hx. apply (IH i j); [lia | assumption | assumption].
Qed.

(** The prefixes of the merge are prefixes of one another. *)
Lemma merge_from_take its pos n k :
  merge_from key its pos n = take n (merge_from key its pos (n + k)).
Proof.
  revert pos. induction n as [| n IH]; intros pos; [reflexivity |].
  simpl. destruct (its !! _) as [it |]; [| reflexivity].
  destruct (pos !! _) as [p |]; [| reflexivity].
  simpl. f_equal. apply IH.
Qed.

End MergeFacts.

(** C3: over any iterables that are each non-decreasing in [when], every
    prefix of the merge has its values sorted by [when], ascending, and
    values with equal [when] come in the order of their iterables among the
    arguments (and, within one iterable, in the order it yields them).
    Every value is the one its iterable yields at the recorded position,
    and with at least one iterable the prefix of length [n] exists. *)
Theorem merge_sorted_stable (its : list (nat -> ScheduleEntry)) (n : nat) :
  (forall it, it ∈ its -> forall p, when (it p) <= when (it (S p))) ->
  (its <> [] -> length (merge when its n) = n) /\
  (forall i x, merge when its n !! i = Some x ->
               exists it, its !! order x = Some it /\ value x = it (position x)) /\
  (forall i j x y,
      (i < j)%nat -> merge when its n !! i = Some x -> merge when its n !! j = Some y ->
      when (value x) <= when (value y) /\
      (when (value x) = when (value y) ->
       (order x < order y)%nat \/
       (order x = order y /\ (position x < position y)%nat))).
Proof.
  intros Hmono. unfold merge.
  assert (Hlen : length (replicate (length its) O) = length its)
    by apply length_replicate.
  destruct (merge_from_invariant when its _ n Hlen Hmono) as [Hs Hf].
  split; [| split].
  - intros Hne. now apply merge_from_length.
  - intros i x Hx. rewrite Forall_forall in Hf.
    destruct (Hf x) as (it & p0 & Hit & _ & _ & Hv);
      [eapply list_elem_of_lookup_2; exact Hx |].
    exists it. split; assumption.
  - intros i j x y Hij Hx Hy.
    pose proof (StronglySorted_lookup _ _ i j x y Hs Hij Hx Hy) as [Hlt | [Heq Hord]].
    + split; [lia | intros E; lia].
    + split; [lia | intros _; exact Hord].
Qed.

Lemma merge_sorted_stable_witness :
  ([every_second REFRESH; every_second UPDATE] <> [] ->
   length (merge when [every_second REFRESH; every_second UPDATE] 4) = 4%nat) /\
  (forall i x,
      merge when [every_second REFRESH; every_second UPDATE] 4 !! i = Some x ->
      exists it, [every_second REFRESH; every_second UPDATE] !! order x = Some it /\
                 value x = it (position x)) /\
  (forall i j x y,
      (i < j)%nat ->
      merge when [every_second REFRESH; every_second UPDATE] 4 !! i = Some x ->
      merge when [every_second REFRESH; every_second UPDATE] 4 !! j = Some y ->
      when (value x) <= when (value y) /\
      (when (value x) = when (value y) ->
       (order x < order y)%nat \/
       (order x = order y /\ (position x < position y)%nat))).
Proof.
  apply (merge_sorted_stable [every_second REFRESH; every_second UPDATE] 4).
  intros it Hin p. pose proof B64Facts.one_pos as H1.
  assert (Hev : forall token p', when (every_second token p') = Z.of_nat p' * B64.one)
    by reflexivity.
  apply elem_of_cons in Hin as [-> | Hin]; [rewrite !Hev; nia |].
  apply elem_of_cons in Hin as [-> | Hin]; [rewrite !Hev; nia |].
  apply elem_of_nil in Hin. contradiction.
Defined.

(** The first values of two such streams: equal times come in the order of
    the streams. *)
Example merge_every_second :
  map (fun x => (order x, position x))
      (merge when [every_second REFRESH; every_second UPDATE] 4)
  = [(0, 0); (1, 0); (0, 1); (1, 1)]%nat.
Proof. vm_compute. reflexivity. Qed.

(** The streams of the scheduler never go back in time. *)
Lemma event_stream_nondecreasing token T0 B m M N rnd :
  0 <= B + m -> m < M -> B + M <= 2 ^ 53 ->
  (forall i, is_draw (rnd i)) -> B64.is_b64 N = true ->
  nondecreasing when (Scheduler._event_stream token T0 B m M N rnd).
Proof.
  intros Hlo Hlt Hhi Hrnd HN p. simpl.
  apply add_ge; [now apply event_time_is_b64 |].
  pose proof (random_interval_bounds B m M (rnd (S p)) Hlt
                ltac:(lia) ltac:(lia) ltac:(lia) (Hrnd (S p))) as [Hr _].
  pose proof B64Facts.one_pos. nia.
Qed.

(** The scheduler yields its entries in the order of their times, the
    refresh first among equal times, and never runs dry. *)
Lemma iter_events_sorted last_login last_update now rnd n :
  (forall k, B64.is_b64 (now k) = true) ->
  (forall k i, is_draw (rnd k i)) ->
  StronglySorted (merged_lt when)
                 (Scheduler._iter_events last_login last_update now rnd n) /\
  length (Scheduler._iter_events last_login last_update now rnd n) = n /\
  is_Some (Scheduler.__next__ last_login last_update now rnd n).
Proof.
  intros Hnow Hrnd. unfold Scheduler.__next__, Scheduler._iter_events, merge.
  split; [| split].
  - apply merge_from_invariant; [reflexivity |].
    intros it Hin.
    apply elem_of_cons in Hin as [-> | Hin];
      [apply event_stream_nondecreasing; try apply Hrnd; try apply Hnow;
       vm_compute; congruence |].
    apply elem_of_cons in Hin as [-> | Hin];
      [apply event_stream_nondecreasing; try apply Hrnd; try apply Hnow;
       vm_compute; congruence |].
    apply elem_of_nil in Hin. contradiction.
  - apply merge_from_length; [discriminate | reflexivity].
  - apply fmap_is_Some, lookup_lt_is_Some.
    rewrite merge_from_length; [lia | discriminate | reflexivity].
Qed.

(** ** The tracker *)

Lemma update_where_lookup name ts (t : gmap string Z) :
  UpdateTracker.update_where name ts t !! name =
  match t !! name with
  | Some v => Some (if B64.ltb v ts then ts else v)
  | None => None
  end.
Proof.
  unfold UpdateTracker.update_where.
  destruct (t !! name) as [v |] eqn:E; [| exact E].
  destruct (B64.ltb v ts); [apply lookup_insert_eq | exact E].
Qed.

Lemma update_where_other name name' ts (t : gmap string Z) :
  name <> name' ->
  UpdateTracker.update_where name ts t !! name' = t !! name'.
Proof.
  intros Hne. unfold UpdateTracker.update_where.
  destruct (t !! name) as [v |]; [| reflexivity].
  destruct (B64.ltb v ts); [now apply lookup_insert_ne | reflexivity].
Qed.

Lemma update_where_noop name ts (t : gmap string Z) v :
  t !! name = Some v -> ts <= v -> UpdateTracker.update_where name ts t = t.
Proof.
  intros E Hle. unfold UpdateTracker.update_where. rewrite E.
  unfold B64.ltb. destruct (v <? ts) eqn:L; [apply Z.ltb_lt in L; lia | reflexivity].
Qed.

Lemma last_row k (t : gmap string Z) : UpdateTracker.last k t = t !! UpdateTracker.row k.
Proof. now destruct k. Qed.

Lemma record_row k ts (t : gmap string Z) :
  UpdateTracker.record k ts t = UpdateTracker.update_where (UpdateTracker.row k) ts t.
Proof. now destruct k. Qed.

Lemma last_record k ts (t : gmap string Z) v :
  UpdateTracker.last k t = Some v ->
  UpdateTracker.last k (UpdateTracker.record k ts t)
  = Some (if B64.ltb v ts then ts else v).
Proof.
  rewrite !last_row, record_row, update_where_lookup. now intros ->.
Qed.

Lemma last_record_any k k' ts (t : gmap string Z) v :
  UpdateTracker.last k t = Some v ->
  exists v', UpdateTracker.last k (UpdateTracker.record k' ts t) = Some v' /\ v <= v'.
Proof.
  intros Hv. destruct (decide (UpdateTracker.row k' = UpdateTracker.row k)) as [E | NE].
  - assert (k' = k) as -> by (destruct k, k'; simpl in E; congruence).
    rewrite (last_record k ts t v Hv). unfold B64.ltb.
    destruct (v <? ts) eqn:L; eexists; (split; [reflexivity |]).
    + apply Z.ltb_lt in L. lia.
    + lia.
  - exists v. rewrite last_row, record_row, update_where_other by exact NE.
    rewrite <- last_row. split; [exact Hv | lia].
Qed.

(** C2, as stated, fails: on a store that holds [100] for the updates,
    recording [2] and then [1] leaves [100], not [2], and recording [2]
    and then [3] leaves [100], not [3]. *)
Lemma record_below_stored_value :
  let t := UpdateTracker.record UPDATE 100 (UpdateTracker.__init__ None) in
  1 < 2 < 3 /\
  UpdateTracker.last UPDATE
    (UpdateTracker.record UPDATE 1 (UpdateTracker.record UPDATE 2 t)) <> Some 2 /\
  UpdateTracker.last UPDATE
    (UpdateTracker.record UPDATE 3 (UpdateTracker.record UPDATE 2 t)) <> Some 3.
Proof.
  split; [lia |]. split; vm_compute; discriminate.
Qed.

(** C2, amended: on a store that holds [v] for the kind [k], [record k ts]
    leaves [ts] if [ts] is strictly greater than [v] and changes nothing
    otherwise, so the value never decreases over any sequence of writes;
    and if [v] is below [t1], writing [t1] and then a lower [t0] leaves
    [t1], and writing [t1] and then a greater [t2] leaves [t2]. *)
Theorem record_monotonic k (t : gmap string Z) v :
  UpdateTracker.last k t = Some v ->
  (forall ts,
      UpdateTracker.last k (UpdateTracker.record k ts t)
      = Some (if B64.ltb v ts then ts else v) /\
      (ts <= v -> UpdateTracker.record k ts t = t)) /\
  (forall ops : list (ScheduledEvent * Z),
      exists v',
        UpdateTracker.last k
          (foldl (fun t' op => UpdateTracker.record (fst op) (snd op) t') t ops)
        = Some v' /\ v <= v') /\
  (forall t0 t1 t2,
      t0 < t1 < t2 -> v < t1 ->
      UpdateTracker.last k
        (UpdateTracker.record k t0 (UpdateTracker.record k t1 t)) = Some t1 /\
      UpdateTracker.record k t0 (UpdateTracker.record k t1 t)
      = UpdateTracker.record k t1 t /\
      UpdateTracker.last k
        (UpdateTracker.record k t2 (UpdateTracker.record k t1 t)) = Some t2).
Proof.
  intros Hv. split; [| split].
  - intros ts. split; [now apply last_record |].
    intros Hle. rewrite record_row. rewrite last_row in Hv.
    now apply (update_where_noop _ _ _ v).
  - intros ops. revert t v Hv.
    induction ops as [| [k' ts] ops IH]; intros t v Hv.
    + exists v. split; [exact Hv | lia].
    + simpl. destruct (last_record_any k k' ts t v Hv) as (v1 & Hv1 & Hle1).
      destruct (IH _ _ Hv1) as (v' & Hv' & Hle').
      exists v'. split; [exact Hv' | lia].
  - intros t0 t1 t2 [H01 H12] Hlt.
    assert (H1 : UpdateTracker.last k (UpdateTracker.record k t1 t) = Some t1).
    { rewrite (last_record k t1 t v Hv). unfold B64.ltb.
      now replace (v <? t1) with true by (symmetry; apply Z.ltb_lt; lia). }
    split; [| split].
    + rewrite (last_record k t0 _ t1 H1). unfold B64.ltb.
      now replace (t1 <? t0) with false by (symmetry; apply Z.ltb_ge; lia).
    + rewrite (record_row k t0). rewrite last_row in H1.
      apply (update_where_noop _ _ _ t1 H1). lia.
    + rewrite (last_record k t2 _ t1 H1). unfold B64.ltb.
      now replace (t1 <? t2) with true by (symmetry; apply Z.ltb_lt; lia).
Qed.

Lemma record_monotonic_witness :
  UpdateTracker.last UPDATE
    (UpdateTracker.record UPDATE 1
       (UpdateTracker.record UPDATE 2 (UpdateTracker.__init__ None))) = Some 2 /\
  UpdateTracker.last UPDATE
    (UpdateTracker.record UPDATE 3
       (UpdateTracker.record UPDATE 2 (UpdateTracker.__init__ None))) = Some 3.
Proof.
  destruct (record_monotonic UPDATE (UpdateTracker.__init__ None) 0 eq_refl)
    as (_ & _ & H).
  destruct (H 1 2 3) as (H1 & _ & H3); [lia | lia |].
  split; assumption.
Defined.

Lemma ensure_row_lookup name name' (t : gmap string Z) :
  UpdateTracker.ensure_row name t !! name' =
  match t !! name' with
  | Some v => Some v
  | None => if decide (name = name') then Some 0 else None
  end.
Proof.
  unfold UpdateTracker.ensure_row.
  destruct (t !! name) as [v |] eqn:E.
  - destruct (t !! name') as [v' |] eqn:E'; [reflexivity |].
    destruct (decide (name = name')) as [-> | ?]; [congruence | reflexivity].
  - destruct (decide (name = name')) as [-> | NE].
    + rewrite lookup_insert_eq, E. reflexivity.
    + rewrite lookup_insert_ne by exact NE. now destruct (t !! name').
Qed.

Lemma init_lookup file name :
  UpdateTracker.__init__ file !! name =
  match UpdateTracker.DB_INIT file !! name with
  | Some v => Some v
  | None => if decide (name = "last" \/ name = "login") then Some 0 else None
  end.
Proof.
  unfold UpdateTracker.__init__. rewrite !ensure_row_lookup.
  destruct (UpdateTracker.DB_INIT file !! name) as [v |]; [reflexivity |].
  destruct (decide ("login" = name)) as [<- | N1]; [reflexivity |].
  destruct (decide ("last" = name)) as [<- | N2]; [reflexivity |].
  destruct (decide (name = "last" \/ name = "login")) as [[-> | ->] | N3];
    congruence.
Qed.

(** C9: opening the tracker leaves, for each kind, the stored value if
    there is one and [0] otherwise, so both rows exist afterwards; a value
    already stored is never changed, rows of other names are left alone,
    and opening again changes nothing.  On a new file both [last] are
    [0]. *)
Theorem tracker_open_defaults (file : option (gmap string Z)) (k : ScheduledEvent) :
  UpdateTracker.last k (UpdateTracker.__init__ file)
  = Some (default 0 (UpdateTracker.DB_INIT file !! UpdateTracker.row k)) /\
  (forall name v, UpdateTracker.DB_INIT file !! name = Some v ->
                  UpdateTracker.__init__ file !! name = Some v) /\
  (forall t v, file = Some t -> UpdateTracker.last k t = Some v ->
               UpdateTracker.last k (UpdateTracker.__init__ file) = Some v) /\
  UpdateTracker.__init__ (Some (UpdateTracker.__init__ file))
  = UpdateTracker.__init__ file /\
  UpdateTracker.last k (UpdateTracker.__init__ None) = Some 0.
Proof.
  assert (H1 : forall f, UpdateTracker.last k (UpdateTracker.__init__ f)
                         = Some (default 0 (UpdateTracker.DB_INIT f !! UpdateTracker.row k))).
  { intros f. rewrite last_row, init_lookup.
    destruct (UpdateTracker.DB_INIT f !! UpdateTracker.row k); [reflexivity |].
    destruct k; reflexivity. }
  split; [apply H1 |]. split; [| split; [| split]].
  - intros name v Hn. now rewrite init_lookup, Hn.
  - intros t v -> Hv. rewrite H1. simpl. rewrite last_row in Hv. now rewrite Hv.
  - apply map_eq. intros name. rewrite init_lookup. simpl.
    destruct (UpdateTracker.__init__ file !! name) as [v |] eqn:E; [reflexivity |].
    rewrite init_lookup in E.
    destruct (UpdateTracker.DB_INIT file !! name); [discriminate |].
    destruct (decide (name = "last" \/ name = "login")); [discriminate | reflexivity].
  - destruct k; reflexivity.
Qed.

(** ** The wait, the guard and the loop *)

Lemma wait_due env fuel when_ p w :
  when_ <= clock env (trace w) ->
  wall_clock_wait env (S fuel) when_ p w
  = (Ret tt, record_event (Clock (clock env (trace w))) w).
Proof.
  intros Hdue. simpl. unfold bind, time, B64.ltb.
  now replace (clock env (trace w) <? when_) with false
    by (symmetry; apply Z.ltb_ge; lia).
Qed.

Lemma wait_turn env fuel when_ p w :
  clock env (trace w) < when_ ->
  wall_clock_wait env (S fuel) when_ p w
  = match raises env (trace w ++ [Clock (clock env (trace w))]) (sleep p) with
    | None =>
        wall_clock_wait env fuel when_ p
          (record_event (Called (sleep p) None)
             (record_event (Clock (clock env (trace w))) w))
    | Some e =>
        (Raise e,
         record_event (Called (sleep p) (Some e))
           (record_event (Clock (clock env (trace w))) w))
    end.
Proof.
  intros Hlt. simpl. unfold bind at 1. unfold time, B64.ltb.
  replace (clock env (trace w) <? when_) with true
    by (symmetry; apply Z.ltb_lt; lia).
  unfold bind, ext. simpl.
  now destruct (raises env _ (sleep p)).
Qed.

Lemma wait_returns env fuel when_ p w w' :
  wall_clock_wait env fuel when_ p w = (Ret tt, w') ->
  exists ts t,
    trace w' = trace w ++ polls p ts ++ [Clock t] /\
    Forall (fun t' => t' < when_) ts /\ when_ <= t /\
    (length ts < fuel)%nat /\ db w' = db w.
Proof.
  revert w. induction fuel as [| fuel IH]; intros w H; [discriminate |].
  destruct (Z.lt_ge_cases (clock env (trace w)) when_) as [Hlt | Hge].
  - rewrite wait_turn in H by exact Hlt.
    destruct (raises env _ (sleep p)) as [e |]; [discriminate |].
    apply IH in H. destruct H as (ts & t & Htr & Hall & Hdue & Hlen & Hdb).
    exists (clock env (trace w) :: ts), t. repeat split.
    + rewrite Htr. simpl. rewrite <- !app_assoc. reflexivity.
    + constructor; assumption.
    + exact Hdue.
    + simpl. lia.
    + exact Hdb.
  - rewrite wait_due in H by exact Hge. injection H as <-.
    exists [], (clock env (trace w)). repeat split; auto. simpl. lia.
Qed.

Lemma wait_completes env when_ p ts : forall w t fuel,
  (forall i t', ts !! i = Some t' ->
     clock env (trace w ++ polls p (take i ts)) = t' /\ t' < when_ /\
     raises env (trace w ++ polls p (take i ts) ++ [Clock t']) (sleep p) = None) ->
  clock env (trace w ++ polls p ts) = t -> when_ <= t ->
  (length ts < fuel)%nat ->
  wall_clock_wait env fuel when_ p w
  = (Ret tt, {| trace := trace w ++ polls p ts ++ [Clock t]; db := db w |}).
Proof.
  induction ts as [| t1 ts IH]; intros w t fuel Hpolls Ht Hdue Hfuel;
    (destruct fuel as [| fuel]; [simpl in Hfuel; lia |]).
  - simpl in Ht. rewrite app_nil_r in Ht.
    rewrite wait_due by lia. now rewrite Ht.
  - destruct (Hpolls O t1 eq_refl) as (Hc & Hlt & Hs).
    simpl in Hc, Hs. rewrite app_nil_r in Hc.
    rewrite wait_turn by lia. rewrite Hc, Hs.
    rewrite (IH _ t fuel).
    + simpl. rewrite <- !app_assoc. reflexivity.
    + intros i t' Hi. specialize (Hpolls (S i) t' Hi). simpl in Hpolls.
      simpl. rewrite <- !app_assoc. simpl. exact Hpolls.
    + simpl. rewrite <- !app_assoc. exact Ht.
    + exact Hdue.
    + simpl in Hfuel. lia.
Qed.

Ltac not_in_list :=
  repeat match goal with
         | |- forall _, _ => intro
         | |- _ ∉ _ => intro
         | H : _ ∈ [] |- _ => apply elem_of_nil in H; contradiction
         | H : _ ∈ _ :: _ |- _ =>
             apply elem_of_cons in H; destruct H as [H | H]; [discriminate H |]
         end.

Ltac raised_in_list :=
  repeat match goal with
         | |- forall _, _ => intro
         | H : _ ∈ [] |- _ => apply elem_of_nil in H; contradiction
         | H : _ ∈ _ :: _ |- _ =>
             apply elem_of_cons in H; destruct H as [H | H];
             [first [discriminate H | injection H as -> ->; reflexivity] |]
         end.

Ltac world_eq :=
  unfold record_event; simpl; rewrite <- ?app_assoc; simpl; reflexivity.

Section GuardFacts.
Context (env : environment) (dir : string) {A : Type} (body : M A).

Lemma guard_new_fails w e :
  raises env (trace w) browser_new = Some e ->
  managed_browser env dir body w
  = (Raise e, record_event (Called browser_new (Some e)) w).
Proof. intros H. unfold managed_browser, bind, ext. now rewrite H. Qed.

(** The [try] statement of the guard without its [finally]: what the
    [except] and [else] clauses do once the body has ended. *)
Lemma guard_clauses w1 rb wb :
  body w1 = (rb, wb) ->
  rb <> OutOfFuel ->
  exists ri diag,
    try_except_else body
      (fun exc =>
         if is_WebDriverException exc
         then Some (ext env current_url ;;
                    ext env get_cookies ;;
                    t <- time env ;;
                    ext env (save_screenshot dir (t / B64.one)) ;;
                    raise exc)%py
         else None)
      (ext env current_url ;; ext env get_cookies)%py w1
    = (ri, {| trace := trace wb ++ diag; db := db wb |}) /\
    (forall o, Called quit o ∉ diag) /\
    (forall k o, Called (action k) o ∉ diag) /\
    (forall e, rb = Raise e -> is_WebDriverException e = false ->
               ri = rb /\ diag = []) /\
    ((forall e, rb = Raise e -> is_WebDriverException e = false) ->
     forall d s o, Called (save_screenshot d s) o ∉ diag) /\
    (forall c e, Called c (Some e) ∈ diag -> ri = Raise e) /\
    ri <> OutOfFuel /\
    (diagnostics_ok env ->
     ri = rb /\
     (forall a, rb = Ret a ->
                diag = [Called current_url None; Called get_cookies None]) /\
     (forall e, rb = Raise e -> is_WebDriverException e = true ->
        let t := clock env (trace wb ++ [Called current_url None;
                                         Called get_cookies None]) in
        diag = [Called current_url None; Called get_cookies None; Clock t;
                Called (save_screenshot dir (t / B64.one)) None])).
Proof.
  intros Hbody Hfuel.
  unfold try_except_else. rewrite Hbody.
  destruct rb as [a | e |]; [| | congruence].
  - (* the body returns *)
    unfold bind, ext.
    destruct (raises env (trace wb) current_url) as [e1 |] eqn:E1.
    + eexists _, [_]. split; [reflexivity |]. split; [not_in_list |].
      split; [not_in_list |]. split; [discriminate |]. split; [not_in_list |].
      split; [raised_in_list |]. split; [discriminate |].
      intros Hok. destruct (Hok (trace wb)) as (Hu & _). congruence.
    + simpl.
      destruct (raises env (trace wb ++ [Called current_url None]) get_cookies)
        as [e2 |] eqn:E2.
      * eexists _, [_; _]. split; [f_equal; world_eq |]. split; [not_in_list |].
        split; [not_in_list |]. split; [discriminate |]. split; [not_in_list |].
        split; [raised_in_list |]. split; [discriminate |].
        intros Hok.
        destruct (Hok (trace wb ++ [Called current_url None])) as (_ & Hc & _).
        congruence.
      * eexists _, [_; _]. split; [f_equal; world_eq |]. split; [not_in_list |].
        split; [not_in_list |]. split; [discriminate |]. split; [not_in_list |].
        split; [raised_in_list |]. split; [discriminate |].
        intros _. split; [reflexivity |]. split; [reflexivity | discriminate].
  - (* the body raises *)
    destruct (is_WebDriverException e) eqn:Ew.
    + unfold bind, ext, time, raise.
      destruct (raises env (trace wb) current_url) as [e1 |] eqn:E1.
      * eexists _, [_]. split; [reflexivity |]. split; [not_in_list |].
        split; [not_in_list |].
        split; [intros ? [= <-]; congruence |].
        split; [intros H; specialize (H e eq_refl); congruence |].
        split; [raised_in_list |]. split; [discriminate |].
        intros Hok. destruct (Hok (trace wb)) as (Hu & _). congruence.
      * simpl.
        destruct (raises env (trace wb ++ [Called current_url None]) get_cookies)
          as [e2 |] eqn:E2.
        -- eexists _, [_; _]. split; [f_equal; world_eq |]. split; [not_in_list |].
           split; [not_in_list |].
           split; [intros ? [= <-]; congruence |].
           split; [intros H; specialize (H e eq_refl); congruence |].
           split; [raised_in_list |]. split; [discriminate |].
           intros Hok.
           destruct (Hok (trace wb ++ [Called current_url None])) as (_ & Hc & _).
           congruence.
        -- simpl.
           match goal with
           | |- context [raises env ?tr (save_screenshot ?d ?s)] =>
               destruct (raises env tr (save_screenshot d s)) as [e3 |] eqn:E3
           end.
           ++ eexists _, [_; _; _; _]. split; [f_equal; world_eq |].
              split; [not_in_list |]. split; [not_in_list |].
              split; [intros ? [= <-]; congruence |].
              split; [intros H; specialize (H e eq_refl); congruence |].
              split; [raised_in_list |]. split; [discriminate |].
              intros Hok.
              match type of E3 with
              | raises env ?tr _ = _ => destruct (Hok tr) as (_ & _ & Hs)
              end.
              rewrite Hs in E3. discriminate.
           ++ eexists _, [_; _; _; _]. split; [f_equal; world_eq |].
              split; [not_in_list |]. split; [not_in_list |].
              split; [intros ? [= <-]; congruence |].
              split; [intros H; specialize (H e eq_refl); congruence |].
              split; [raised_in_list |]. split; [discriminate |].
              intros _. split; [reflexivity |]. split; [discriminate |].
              intros ? [= <-] _. simpl. rewrite <- ?app_assoc. reflexivity.
    + eexists _, []. split; [f_equal; destruct wb; simpl; now rewrite app_nil_r |].
      split; [not_in_list |]. split; [not_in_list |].
      split; [intros; split; reflexivity |].
      split; [not_in_list |].
      split; [raised_in_list |]. split; [discriminate |].
      intros _. split; [reflexivity |]. split; [discriminate |].
      intros ? [= <-]. congruence.
Qed.

(** What the guard does once the body has ended: the clauses above, then
    [quit], whose exception, if it raises one, is the one that leaves the
    guard. *)
Lemma guard_after_body w rb wb :
  raises env (trace w) browser_new = None ->
  body (record_event (Called browser_new None) w) = (rb, wb) ->
  rb <> OutOfFuel ->
  exists ri diag,
    managed_browser env dir body w
    = (match raises env (trace wb ++ diag) quit with
       | None => ri
       | Some e => Raise e
       end,
       {| trace := trace wb ++ diag
                   ++ [Called quit (raises env (trace wb ++ diag) quit)];
          db := db wb |}) /\
    (forall o, Called quit o ∉ diag) /\
    (forall k o, Called (action k) o ∉ diag) /\
    (forall e, rb = Raise e -> is_WebDriverException e = false ->
               ri = rb /\ diag = []) /\
    ((forall e, rb = Raise e -> is_WebDriverException e = false) ->
     forall d s o, Called (save_screenshot d s) o ∉ diag) /\
    (forall c e, Called c (Some e) ∈ diag -> ri = Raise e) /\
    ri <> OutOfFuel /\
    (diagnostics_ok env ->
     ri = rb /\
     (forall a, rb = Ret a ->
                diag = [Called current_url None; Called get_cookies None]) /\
     (forall e, rb = Raise e -> is_WebDriverException e = true ->
        let t := clock env (trace wb ++ [Called current_url None;
                                         Called get_cookies None]) in
        diag = [Called current_url None; Called get_cookies None; Clock t;
                Called (save_screenshot dir (t / B64.one)) None])).
Proof.
  intros Hnew Hbody Hfuel.
  destruct (guard_clauses _ rb wb Hbody Hfuel) as (ri & diag & Heq & Hrest).
  exists ri, diag. split; [| exact Hrest].
  unfold managed_browser, bind at 1, ext at 1. rewrite Hnew.
  unfold try_finally. rewrite Heq.
  assert (Hri : ri <> OutOfFuel) by tauto.
  unfold browser_quit, ext. simpl.
  destruct ri as [a | e |]; [| | congruence];
    destruct (raises env (trace wb ++ diag) quit);
    f_equal; world_eq.
Qed.

End GuardFacts.

Section LoopFacts.
Context (env : environment) (dir : string).

Lemma try_except_reraise {A} (m : M A) (P : exn -> bool) w :
  try_except m (fun exc => if P exc then Some (raise exc) else None) w = m w.
Proof.
  unfold try_except. destruct (m w) as [[a | e |] w']; try reflexivity.
  now destruct (P e).
Qed.

Lemma with_browser_eq k w :
  with_browser env dir k w = managed_browser env dir (ext env (action k)) w.
Proof.
  destruct k; [reflexivity |]. unfold with_browser, managed_browser, bind.
  destruct (ext env browser_new w) as [[[] | e |] w1]; try reflexivity.
  unfold try_finally, try_except_else. now rewrite try_except_reraise.
Qed.

(** The [with] statement ends, leaves the tracker alone and makes no
    browser script but that of its kind.  It ends with the
    [KeyboardInterrupt] that any of its calls raised, unless [quit] then
    raised another exception. *)
Lemma with_browser_outcome k w :
  exists r tr,
    with_browser env dir k w = (r, {| trace := trace w ++ tr; db := db w |}) /\
    r <> OutOfFuel /\
    (forall c, Called c (Some KeyboardInterrupt) ∈ tr ->
       (forall e, Called quit (Some e) ∈ tr -> e = KeyboardInterrupt) ->
       r = Raise KeyboardInterrupt) /\
    (forall k' o, Called (action k') o ∈ tr -> k' = k).
Proof.
  rewrite with_browser_eq.
  destruct (raises env (trace w) browser_new) as [e0 |] eqn:Hnew.
  - rewrite (guard_new_fails env dir _ w e0 Hnew).
    exists (Raise e0), [Called browser_new (Some e0)].
    split; [reflexivity |]. split; [discriminate |]. split.
    + intros c Hin _. apply list_elem_of_singleton in Hin. now injection Hin as _ <-.
    + intros k' o Hin. apply list_elem_of_singleton in Hin. discriminate.
  - pose (w1 := record_event (Called browser_new None) w).
    destruct (ext env (action k) w1) as [rb wb] eqn:Hbody.
    assert (Hwb : exists o, wb = record_event (Called (action k) o) w1 /\
                            rb = match o with None => Ret tt | Some e => Raise e end).
    { unfold ext in Hbody. destruct (raises env (trace w1) (action k)) as [e |];
        injection Hbody as <- <-; eexists; split; reflexivity. }
    destruct Hwb as (o & -> & Hrb).
    assert (Hfuel : rb <> OutOfFuel) by (rewrite Hrb; destruct o; discriminate).
    destruct (guard_after_body env dir _ w rb _ Hnew Hbody Hfuel)
      as (r & diag & Heq & Hquit & Hact & Hplain & _ & Hraised & Hr & _).
    set (oq := raises env _ quit) in Heq.
    exists (match oq with None => r | Some e => Raise e end),
           ([Called browser_new None; Called (action k) o] ++ diag ++ [Called quit oq]).
    split; [rewrite Heq; simpl; rewrite <- !app_assoc; reflexivity |].
    split; [destruct oq; [discriminate | exact Hr] |]. split.
    + intros c Hin Hq. destruct oq as [eq |].
      * rewrite (Hq eq); [reflexivity |].
        rewrite !elem_of_app, list_elem_of_singleton. auto.
      * simpl in Hin.
        apply elem_of_cons in Hin as [Hin | Hin]; [discriminate |].
        apply elem_of_cons in Hin as [Hin | Hin].
        -- injection Hin as -> <-.
           destruct (Hplain KeyboardInterrupt Hrb eq_refl) as [-> _]. exact Hrb.
        -- apply elem_of_app in Hin as [Hin | Hin]; [now apply Hraised in Hin |].
           apply list_elem_of_singleton in Hin. discriminate.
    + intros k' o' Hin. simpl in Hin.
      apply elem_of_cons in Hin as [Hin | Hin]; [discriminate |].
      apply elem_of_cons in Hin as [Hin | Hin]; [now injection Hin |].
      apply elem_of_app in Hin as [Hin | Hin];
        [| apply list_elem_of_singleton in Hin; discriminate].
      now apply Hact in Hin.
Qed.

Lemma handle_event_eq ev w :
  handle_event env dir ev w
  = try_except
      (bind (with_browser env dir (what ev))
            (fun _ => bind (time env)
                        (fun t => tracker_write (UpdateTracker.record (what ev) t))))
      event_handler w.
Proof. unfold handle_event. now destruct (what ev). Qed.

Lemma handle_event_cases ev w :
  exists rd wd,
    with_browser env dir (what ev) w = (rd, wd) /\
    db wd = db w /\ rd <> OutOfFuel /\
    handle_event env dir ev w
    = match rd with
      | Ret _ =>
          (Ret tt,
           {| trace := trace wd ++ [Clock (clock env (trace wd))];
              db := UpdateTracker.record (what ev) (clock env (trace wd)) (db wd) |})
      | Raise e => if is_Exception e then (Ret tt, wd) else (Raise e, wd)
      | OutOfFuel => (OutOfFuel, wd)
      end.
Proof.
  destruct (with_browser_outcome (what ev) w) as (r & tr & Heq & Hr & _).
  exists r, {| trace := trace w ++ tr; db := db w |}.
  split; [exact Heq |]. split; [reflexivity |]. split; [exact Hr |].
  rewrite handle_event_eq. unfold try_except, bind at 1. rewrite Heq.
  destruct r as [[] | e |]; [reflexivity | | congruence].
  destruct e; reflexivity.
Qed.

Lemma event_loop_step fuel sched i ev w :
  sched i = Some ev ->
  event_loop env (S fuel) dir sched i w
  = match wall_clock_wait env (S fuel) (when ev) B64.one w with
    | (Ret _, w1) =>
        match handle_event env dir ev w1 with
        | (Ret _, w2) => event_loop env fuel dir sched (S i) w2
        | (Raise e, w2) => (Raise e, w2)
        | (OutOfFuel, w2) => (OutOfFuel, w2)
        end
    | (Raise e, w1) => (Raise e, w1)
    | (OutOfFuel, w1) => (OutOfFuel, w1)
    end.
Proof.
  intros Hi. cbn [event_loop]. rewrite Hi. unfold bind.
  destruct (wall_clock_wait env (S fuel) (when ev) B64.one w) as [[[] | e |] w1];
    reflexivity.
Qed.

End LoopFacts.

Lemma since_app w tr dbv :
  since w {| trace := trace w ++ tr; db := dbv |} = tr.
Proof. unfold since. simpl. apply drop_app_length. Qed.

(** The handler of the loop passes [KeyboardInterrupt] on, in the world
    the [with] statement left. *)
Lemma handle_event_passes_interrupt env dir ev w wd :
  with_browser env dir (what ev) w = (Raise KeyboardInterrupt, wd) ->
  handle_event env dir ev w = (Raise KeyboardInterrupt, wd) /\ db wd = db w.
Proof.
  intros Hw.
  destruct (handle_event_cases env dir ev w) as (rd & wd' & Hw' & Hdb & _ & Hh).
  rewrite Hw in Hw'. injection Hw' as <- <-. split; [exact Hh | exact Hdb].
Qed.

Lemma handle_event_interrupt env dir ev w1 r w2 :
  handle_event env dir ev w1 = (r, w2) ->
  (exists c, Called c (Some KeyboardInterrupt) ∈ since w1 w2) ->
  (forall e, Called quit (Some e) ∈ since w1 w2 -> e = KeyboardInterrupt) ->
  r = Raise KeyboardInterrupt /\ db w2 = db w1.
Proof.
  intros Hh [c Hin] Hq.
  destruct (with_browser_outcome env dir (what ev) w1) as (r0 & tr & Heq & Hr & Hki & _).
  rewrite handle_event_eq in Hh. unfold try_except, bind at 1 in Hh. rewrite Heq in Hh.
  destruct r0 as [[] | e |]; [| | congruence].
  - unfold bind, time, tracker_write in Hh. simpl in Hh. injection Hh as <- <-.
    unfold since in Hin, Hq. simpl in Hin, Hq.
    rewrite <- app_assoc, drop_app_length in Hin, Hq.
    apply elem_of_app in Hin as [Hin | Hin].
    + assert (Ret tt = Raise KeyboardInterrupt) as Habs; [| discriminate Habs].
      apply (Hki _ Hin). intros e He. apply Hq, elem_of_app. now left.
    + apply list_elem_of_singleton in Hin. discriminate.
  - assert (w2 = {| trace := trace w1 ++ tr; db := db w1 |}) as ->.
    { destruct e; simpl in Hh; now injection Hh. }
    rewrite since_app in Hin, Hq. specialize (Hki _ Hin Hq).
    injection Hki as ->. simpl in Hh. injection Hh as <-. split; reflexivity.
Qed.

(** C4, as stated, fails: the browser script returns, reading the URL
    for the log raises, and the [with] statement raises instead of
    returning. *)
Lemma guard_changes_outcome :
  let env := failing current_url (WebDriverException 7) in
  fst (ext env (action REFRESH)
           (record_event (Called browser_new None) fresh_world)) = Ret tt /\
  fst (managed_browser env "screenshots" (ext env (action REFRESH)) fresh_world)
  = Raise (WebDriverException 7).
Proof. split; reflexivity. Qed.

(** C4, amended: however the body ends (return, exception of any class,
    [KeyboardInterrupt]), the guard then makes its diagnostic calls, if
    any, and calls [quit] exactly once, as the last thing it does, whether
    [quit] raises or not.  An exception raised by [quit] is the one that
    leaves the guard.  When [quit] does not raise: an exception of the body
    that is not a [WebDriverException] leaves the guard unchanged; every
    outcome of the body leaves it unchanged when the diagnostic calls do
    not raise; an exception raised by a diagnostic call leaves the guard in
    place of the outcome of the body. *)
Theorem guard_releases_once env dir (A : Type) (body : M A) w rb wb :
  raises env (trace w) browser_new = None ->
  body (record_event (Called browser_new None) w) = (rb, wb) ->
  rb <> OutOfFuel ->
  exists r diag o,
    managed_browser env dir body w
    = (r, {| trace := trace wb ++ diag ++ [Called quit o]; db := db wb |}) /\
    (forall o', Called quit o' ∉ diag) /\
    r <> OutOfFuel /\
    o = raises env (trace wb ++ diag) quit /\
    (forall e, o = Some e -> r = Raise e) /\
    (o = None ->
     (forall e, rb = Raise e -> is_WebDriverException e = false -> r = rb) /\
     (diagnostics_ok env -> r = rb) /\
     (forall c e, Called c (Some e) ∈ diag -> r = Raise e)).
Proof.
  intros Hnew Hbody Hfuel.
  destruct (guard_after_body env dir body w rb wb Hnew Hbody Hfuel)
    as (ri & diag & Heq & Hquit & _ & Hplain & _ & Hraised & Hr & Hok).
  eexists _, diag, _. split; [exact Heq |]. split; [exact Hquit |].
  destruct (raises env (trace wb ++ diag) quit) as [eq |].
  - split; [discriminate |]. split; [reflexivity |].
    split; [now intros e [= <-] | discriminate].
  - split; [exact Hr |]. split; [reflexivity |]. split; [discriminate |].
    intros _. split; [| split; [| exact Hraised]].
    + intros e He Hw. now destruct (Hplain e He Hw).
    + intros H. now destruct (Hok H).
Qed.

Lemma guard_releases_once_witness :
  exists r diag o,
    managed_browser (failing_release (Exception 3) (Exception 9)) "screenshots"
      (ext (failing_release (Exception 3) (Exception 9)) (action REFRESH))
      fresh_world
    = (r, {| trace := [Called browser_new None;
                       Called (action REFRESH) (Some (Exception 3))]
                      ++ diag ++ [Called quit o];
             db := db fresh_world |}) /\
    (forall o', Called quit o' ∉ diag) /\
    r <> OutOfFuel /\
    o = Some (Exception 9) /\
    (forall e, o = Some e -> r = Raise e).
Proof.
  destruct (guard_releases_once
              (failing_release (Exception 3) (Exception 9)) "screenshots" unit
              (ext (failing_release (Exception 3) (Exception 9)) (action REFRESH))
              fresh_world (Raise (Exception 3))
              {| trace := [Called browser_new None;
                           Called (action REFRESH) (Some (Exception 3))];
                 db := db fresh_world |})
    as (r & diag & o & Heq & Hquit & Hr & Ho & Hrel & _).
  - reflexivity.
  - reflexivity.
  - discriminate.
  - exists r, diag, o. repeat split; assumption.
Defined.

(** C6, as stated, fails: the browser script raises a
    [WebDriverException], reading the URL raises another one, and the
    guard saves no screenshot and raises the second exception. *)
Lemma guard_snapshot_lost :
  let env := failing_twice (WebDriverException 1) (WebDriverException 2) in
  managed_browser env "screenshots" (ext env (action UPDATE)) fresh_world
  = (Raise (WebDriverException 2),
     {| trace := [Called browser_new None;
                  Called (action UPDATE) (Some (WebDriverException 1));
                  Called current_url (Some (WebDriverException 2));
                  Called quit None];
        db := db fresh_world |}).
Proof. reflexivity. Qed.

(** C6, amended: when the body raises a [WebDriverException] and the
    diagnostic calls do not raise, the guard reads the URL and the cookies,
    reads the clock, saves a screenshot in the configured directory under
    the name of that second and then calls [quit]; it raises the same
    exception when [quit] does not raise, and the exception of [quit]
    otherwise.  When the body ends in any other way no screenshot is
    saved. *)
Theorem guard_snapshot env dir (A : Type) (body : M A) w rb wb :
  raises env (trace w) browser_new = None ->
  body (record_event (Called browser_new None) w) = (rb, wb) ->
  rb <> OutOfFuel ->
  exists r diag o,
    managed_browser env dir body w
    = (r, {| trace := trace wb ++ diag ++ [Called quit o]; db := db wb |}) /\
    o = raises env (trace wb ++ diag) quit /\
    (forall e, rb = Raise e -> is_WebDriverException e = true ->
               diagnostics_ok env ->
       let t := clock env (trace wb ++ [Called current_url None;
                                        Called get_cookies None]) in
       diag = [Called current_url None; Called get_cookies None; Clock t;
               Called (save_screenshot dir (t / B64.one)) None] /\
       (o = None -> r = Raise e) /\
       (forall e', o = Some e' -> r = Raise e')) /\
    ((forall e, rb = Raise e -> is_WebDriverException e = false) ->
     forall d s o', Called (save_screenshot d s) o' ∉ diag).
Proof.
  intros Hnew Hbody Hfuel.
  destruct (guard_after_body env dir body w rb wb Hnew Hbody Hfuel)
    as (ri & diag & Heq & _ & _ & _ & Hshot & _ & _ & Hok).
  eexists _, diag, _. split; [exact Heq |]. split; [reflexivity |].
  split; [| exact Hshot].
  intros e He Hw Hd. destruct (Hok Hd) as (Hr & _ & Hdiag).
  split; [exact (Hdiag e He Hw) |].
  destruct (raises env (trace wb ++ diag) quit) as [eq |].
  - split; [discriminate | now intros e' [= <-]].
  - split; [intros _; congruence | discriminate].
Qed.

Lemma failing_action_diagnostics_ok k e : diagnostics_ok (failing (action k) e).
Proof. intros tr. repeat split. Qed.

Lemma guard_snapshot_witness :
  managed_browser (failing (action UPDATE) (WebDriverException 1)) "screenshots"
    (ext (failing (action UPDATE) (WebDriverException 1)) (action UPDATE))
    fresh_world
  = (Raise (WebDriverException 1),
     {| trace := [Called browser_new None;
                  Called (action UPDATE) (Some (WebDriverException 1));
                  Called current_url None; Called get_cookies None; Clock 0;
                  Called (save_screenshot "screenshots" 0) None;
                  Called quit None];
        db := db fresh_world |}).
Proof.
  destruct (guard_snapshot
              (failing (action UPDATE) (WebDriverException 1)) "screenshots" unit
              (ext (failing (action UPDATE) (WebDriverException 1)) (action UPDATE))
              fresh_world (Raise (WebDriverException 1))
              {| trace := [Called browser_new None;
                           Called (action UPDATE) (Some (WebDriverException 1))];
                 db := db fresh_world |})
    as (r & diag & o & Heq & Ho & Hwd & _).
  - reflexivity.
  - reflexivity.
  - discriminate.
  - destruct (Hwd (WebDriverException 1) eq_refl eq_refl
                  (failing_action_diagnostics_ok UPDATE (WebDriverException 1)))
      as (Hdiag & Hr & _).
    rewrite Hdiag in Ho, Heq. simpl in Ho.
    rewrite (Hr Ho), Ho in Heq. exact Heq.
Defined.

(** C5: the [with] statement of the entry ends and leaves the tracker
    alone.  If it returns, the clock is read and [record(k, now)] is
    performed; if it raises anything but [KeyboardInterrupt], the exception
    is caught and the tracker is as before the dispatch.  In both cases the
    loop goes on with the next entry. *)
Theorem dispatch_records_on_success_only env dir ev w :
  exists rd wd,
    with_browser env dir (what ev) w = (rd, wd) /\
    db wd = db w /\ rd <> OutOfFuel /\
    (forall u, rd = Ret u ->
       let now := clock env (trace wd) in
       handle_event env dir ev w
       = (Ret tt, {| trace := trace wd ++ [Clock now];
                     db := UpdateTracker.record (what ev) now (db w) |})) /\
    (forall e, rd = Raise e -> e <> KeyboardInterrupt ->
       handle_event env dir ev w = (Ret tt, wd) /\
       UpdateTracker.last (what ev) (db wd) = UpdateTracker.last (what ev) (db w)) /\
    (forall fuel sched i w0 w',
       sched i = Some ev ->
       wall_clock_wait env (S fuel) (when ev) B64.one w0 = (Ret tt, w) ->
       handle_event env dir ev w = (Ret tt, w') ->
       event_loop env (S fuel) dir sched i w0
       = event_loop env fuel dir sched (S i) w').
Proof.
  destruct (handle_event_cases env dir ev w) as (rd & wd & Hw & Hdb & Hr & Hh).
  exists rd, wd. split; [exact Hw |]. split; [exact Hdb |]. split; [exact Hr |].
  split; [| split].
  - intros u ->. simpl. now rewrite Hh, Hdb.
  - intros e -> Hne. rewrite Hh, Hdb. split; [| reflexivity].
    destruct e; [reflexivity | reflexivity | congruence].
  - intros fuel sched i w0 w' Hi Hwait Hev.
    now rewrite (event_loop_step env dir fuel sched i ev w0 Hi), Hwait, Hev.
Qed.

(** C7, as stated, fails: the browser script is interrupted, [quit]
    then raises an ordinary exception, which replaces the
    [KeyboardInterrupt]; the handler of the loop catches it and the loop
    dispatches the next entry. *)
Lemma keyboard_interrupt_lost :
  let env := failing_release KeyboardInterrupt (Exception 9) in
  handle_event env "screenshots" {| when := 0; what := REFRESH |}
               {| trace := [Clock 0]; db := db fresh_world |}
  = (Ret tt,
     {| trace := [Clock 0; Called browser_new None;
                  Called (action REFRESH) (Some KeyboardInterrupt);
                  Called quit (Some (Exception 9))];
        db := db fresh_world |}) /\
  event_loop env 2 "screenshots" refresh_then_update 0 fresh_world
  = (OutOfFuel,
     {| trace := [Clock 0; Called browser_new None;
                  Called (action REFRESH) (Some KeyboardInterrupt);
                  Called quit (Some (Exception 9));
                  Clock 0; Called browser_new None;
                  Called (action UPDATE) (Some KeyboardInterrupt);
                  Called quit (Some (Exception 9))];
        db := db fresh_world |}).
Proof. split; reflexivity. Qed.

(** C7, amended: the handler of the loop never catches
    [KeyboardInterrupt].  When the [with] statement of an entry ends with
    it, it leaves [handle_event] and the loop, the tracker being as before
    the dispatch and the world as the [with] statement left it: nothing is
    called or written afterwards.  The [with] statement does end with it
    when any call made while the entry is handled raised it, [quit]
    included, and [quit] raised no other exception.  Raised during the
    wait, it leaves the loop before the entry is handled.  Whatever the
    [try] statement guards, its [except] clauses pass a
    [KeyboardInterrupt] on. *)
Theorem keyboard_interrupt_leaves_loop env dir fuel sched i ev w :
  sched i = Some ev ->
  (forall w1,
      wall_clock_wait env (S fuel) (when ev) B64.one w = (Raise KeyboardInterrupt, w1) ->
      event_loop env (S fuel) dir sched i w = (Raise KeyboardInterrupt, w1)) /\
  (forall w1 w2,
      wall_clock_wait env (S fuel) (when ev) B64.one w = (Ret tt, w1) ->
      with_browser env dir (what ev) w1 = (Raise KeyboardInterrupt, w2) ->
      handle_event env dir ev w1 = (Raise KeyboardInterrupt, w2) /\
      db w2 = db w1 /\
      event_loop env (S fuel) dir sched i w = (Raise KeyboardInterrupt, w2)) /\
  (forall w1 r w2,
      wall_clock_wait env (S fuel) (when ev) B64.one w = (Ret tt, w1) ->
      handle_event env dir ev w1 = (r, w2) ->
      (exists c, Called c (Some KeyboardInterrupt) ∈ since w1 w2) ->
      (forall e, Called quit (Some e) ∈ since w1 w2 -> e = KeyboardInterrupt) ->
      r = Raise KeyboardInterrupt /\ db w2 = db w1 /\
      event_loop env (S fuel) dir sched i w = (Raise KeyboardInterrupt, w2)) /\
  (forall (guarded : M unit) w1 w2,
      guarded w1 = (Raise KeyboardInterrupt, w2) ->
      try_except guarded event_handler w1 = (Raise KeyboardInterrupt, w2)).
Proof.
  intros Hi. split; [| split; [| split]].
  - intros w1 Hwait.
    now rewrite (event_loop_step env dir fuel sched i ev w Hi), Hwait.
  - intros w1 w2 Hwait Hwith.
    destruct (handle_event_passes_interrupt env dir ev w1 w2 Hwith) as [Hev Hdb].
    split; [exact Hev |]. split; [exact Hdb |].
    now rewrite (event_loop_step env dir fuel sched i ev w Hi), Hwait, Hev.
  - intros w1 r w2 Hwait Hev Hki Hq.
    destruct (handle_event_interrupt env dir ev w1 r w2 Hev Hki Hq) as [-> Hdb].
    split; [reflexivity |]. split; [exact Hdb |].
    now rewrite (event_loop_step env dir fuel sched i ev w Hi), Hwait, Hev.
  - intros guarded w1 w2 Hg. unfold try_except. now rewrite Hg.
Qed.

Lemma keyboard_interrupt_leaves_loop_witness :
  event_loop (failing_release (Exception 3) KeyboardInterrupt) 1 "screenshots"
             refresh_then_update 0 fresh_world
  = (Raise KeyboardInterrupt,
     {| trace := [Clock 0; Called browser_new None;
                  Called (action REFRESH) (Some (Exception 3));
                  Called quit (Some KeyboardInterrupt)];
        db := db fresh_world |}).
Proof.
  destruct (keyboard_interrupt_leaves_loop
              (failing_release (Exception 3) KeyboardInterrupt) "screenshots" 0
              refresh_then_update 0
              {| when := 0; what := REFRESH |} fresh_world eq_refl)
    as (_ & _ & H & _).
  destruct (H {| trace := [Clock 0]; db := db fresh_world |}
              (Raise KeyboardInterrupt)
              {| trace := [Clock 0; Called browser_new None;
                           Called (action REFRESH) (Some (Exception 3));
                           Called quit (Some KeyboardInterrupt)];
                 db := db fresh_world |})
    as (_ & _ & Hloop).
  - reflexivity.
  - reflexivity.
  - exists quit. apply list_elem_of_lookup. exists 2%nat. reflexivity.
  - intros e He. unfold since in He. simpl in He.
    apply elem_of_cons in He as [He | He]; [discriminate |].
    apply elem_of_cons in He as [He | He]; [discriminate |].
    apply elem_of_cons in He as [He | He]; [now injection He as -> |].
    apply elem_of_nil in He. contradiction.
  - exact Hloop.
Defined.

(** C8: the wait returns only after a reading of the clock that is not
    below [when]; until then every reading below [when] is followed by one
    sleep of the fixed [precision] and a new reading.  If the first reading
    is not below [when] it returns without sleeping.  With readings that
    reach [when] and enough fuel it does return.  The loop handles an entry
    only after the wait for its [when], with the precision [1.0], has
    returned. *)
Theorem wall_clock_wait_polls env fuel when_ p w :
  (forall w', wall_clock_wait env fuel when_ p w = (Ret tt, w') ->
     exists ts t,
       trace w' = trace w ++ polls p ts ++ [Clock t] /\
       Forall (fun t' => t' < when_) ts /\ when_ <= t /\
       (length ts < fuel)%nat /\ db w' = db w) /\
  (when_ <= clock env (trace w) ->
   wall_clock_wait env (S fuel) when_ p w
   = (Ret tt, record_event (Clock (clock env (trace w))) w)) /\
  (clock env (trace w) < when_ ->
   wall_clock_wait env (S fuel) when_ p w
   = match raises env (trace w ++ [Clock (clock env (trace w))]) (sleep p) with
     | None =>
         wall_clock_wait env fuel when_ p
           (record_event (Called (sleep p) None)
              (record_event (Clock (clock env (trace w))) w))
     | Some e =>
         (Raise e,
          record_event (Called (sleep p) (Some e))
            (record_event (Clock (clock env (trace w))) w))
     end) /\
  (forall ts t,
     (forall i t', ts !! i = Some t' ->
        clock env (trace w ++ polls p (take i ts)) = t' /\ t' < when_ /\
        raises env (trace w ++ polls p (take i ts) ++ [Clock t']) (sleep p) = None) ->
     clock env (trace w ++ polls p ts) = t -> when_ <= t ->
     (length ts < fuel)%nat ->
     wall_clock_wait env fuel when_ p w
     = (Ret tt, {| trace := trace w ++ polls p ts ++ [Clock t]; db := db w |})) /\
  (forall dir sched i ev,
     sched i = Some ev ->
     event_loop env (S fuel) dir sched i w
     = match wall_clock_wait env (S fuel) (when ev) B64.one w with
       | (Ret _, w1) =>
           match handle_event env dir ev w1 with
           | (Ret _, w2) => event_loop env fuel dir sched (S i) w2
           | (Raise e, w2) => (Raise e, w2)
           | (OutOfFuel, w2) => (OutOfFuel, w2)
           end
       | (Raise e, w1) => (Raise e, w1)
       | (OutOfFuel, w1) => (OutOfFuel, w1)
       end).
Proof.
  split; [| split; [| split; [| split]]].
  - intros w'. apply wait_returns.
  - apply wait_due.
  - apply wait_turn.
  - intros ts t. apply wait_completes.
  - intros dir sched i ev. apply event_loop_step.
Qed.

(** ** A run of the loop *)

(** From a new tracker, with a clock that stands still and calls that
    succeed, both streams are clamped to the start; the refresh, first in
    the order of the streams, is dispatched first, and its time is
    recorded. *)
Example update_loop_first_dispatch :
  let now := 1700000000 * B64.one in
  update_loop (calm now) 1 "screenshots" (fun _ _ => 2 ^ 52) fresh_world
  = (OutOfFuel,
     {| trace := [Clock now; Clock now; Clock now;
                  Called browser_new None; Called (action REFRESH) None;
                  Called current_url None; Called get_cookies None;
                  Called quit None; Clock now];
        db := UpdateTracker.record REFRESH now (db fresh_world) |}).
Proof. vm_compute. reflexivity. Qed.

(** ** More on the tracker *)

Lemma update_where_lookup_any name n ts (t : gmap string Z) :
  UpdateTracker.update_where name ts t !! n =
  if decide (name = n)
  then (fun v => if B64.ltb v ts then ts else v) <$> t !! n
  else t !! n.
Proof.
  destruct (decide (name = n)) as [<- | NE].
  - rewrite update_where_lookup. now destruct (t !! name).
  - now apply update_where_other.
Qed.

Lemma update_where_dom name ts (t : gmap string Z) :
  dom (UpdateTracker.update_where name ts t) = dom t.
Proof.
  apply set_eq. intros n. rewrite !elem_of_dom, update_where_lookup_any.
  destruct (decide (name = n)); [| reflexivity].
  now rewrite fmap_is_Some.
Qed.

(** X1: the two rows are independent: [update] leaves the time of the last
    refresh alone and [login] that of the last update, and no write adds
    or removes a row. *)
Theorem record_frame ts (t : gmap string Z) :
  UpdateTracker.last_login (UpdateTracker.update ts t) = UpdateTracker.last_login t /\
  UpdateTracker.last_update (UpdateTracker.login ts t) = UpdateTracker.last_update t /\
  (forall k name, name <> UpdateTracker.row k ->
                  UpdateTracker.record k ts t !! name = t !! name) /\
  (forall k, dom (UpdateTracker.record k ts t) = dom t).
Proof.
  split; [| split; [| split]].
  - unfold UpdateTracker.last_login, UpdateTracker.update.
    now apply update_where_other.
  - unfold UpdateTracker.last_update, UpdateTracker.login.
    now apply update_where_other.
  - intros k name Hne. rewrite record_row. apply update_where_other. congruence.
  - intros k. rewrite record_row. apply update_where_dom.
Qed.

Lemma foldr_max_le v l : v <= foldr Z.max v l.
Proof. induction l as [| x l IH]; simpl; lia. Qed.

Lemma foldr_max_shift v x l : foldr Z.max (Z.max v x) l = Z.max x (foldr Z.max v l).
Proof. induction l as [| y l IH]; simpl; [lia |]. rewrite IH. lia. Qed.

Lemma ltb_max v ts : (if B64.ltb v ts then ts else v) = Z.max v ts.
Proof. unfold B64.ltb. destruct (v <? ts) eqn:E; [apply Z.ltb_lt in E | apply Z.ltb_ge in E]; lia. Qed.

(** X2: after any sequence of writes the tracker holds, for each kind, the
    greatest of the value it held before and the times written for that
    kind, whatever the order of the writes. *)
Theorem last_after_records k (t : gmap string Z) v ops :
  UpdateTracker.last k t = Some v ->
  UpdateTracker.last k (apply_records ops t)
  = Some (foldr Z.max v (recorded k ops)).
Proof.
  revert t v. induction ops as [| [k' ts] ops IH]; intros t v Hv; [exact Hv |].
  unfold apply_records in *. simpl. unfold recorded. rewrite filter_cons. simpl.
  destruct (decide (k' = k)) as [-> | NE].
  - rewrite (IH _ (Z.max v ts)).
    + simpl. fold (recorded k ops). now rewrite foldr_max_shift.
    + rewrite (last_record k ts t v Hv). now rewrite ltb_max.
  - apply IH. rewrite last_row, record_row, update_where_other.
    + now rewrite <- last_row.
    + destruct k, k'; simpl; congruence.
Qed.

Lemma last_after_records_witness :
  UpdateTracker.last UPDATE
    (apply_records [(UPDATE, 5); (REFRESH, 9); (UPDATE, 3)]
                   (UpdateTracker.__init__ None))
  = Some (foldr Z.max 0 (recorded UPDATE [(UPDATE, 5); (REFRESH, 9); (UPDATE, 3)])).
Proof.
  apply (last_after_records UPDATE (UpdateTracker.__init__ None) 0
           [(UPDATE, 5); (REFRESH, 9); (UPDATE, 3)]).
  reflexivity.
Defined.

(** X3: writes commute, also between the kinds, and writing a time twice is
    writing it once. *)
Theorem record_commutes k k' a b (t : gmap string Z) :
  UpdateTracker.record k a (UpdateTracker.record k' b t)
  = UpdateTracker.record k' b (UpdateTracker.record k a t) /\
  UpdateTracker.record k a (UpdateTracker.record k a t) = UpdateTracker.record k a t.
Proof.
  rewrite !record_row. split; apply map_eq; intros n;
    rewrite !update_where_lookup_any;
    repeat (destruct (decide _)); try reflexivity;
    destruct (t !! n) as [v |]; simpl; try reflexivity;
    rewrite !ltb_max; f_equal; lia.
Qed.

Lemma apply_records_dom ops (t : gmap string Z) : dom (apply_records ops t) = dom t.
Proof.
  revert t. induction ops as [| [k ts] ops IH]; intros t; [reflexivity |].
  unfold apply_records in *. simpl. rewrite IH, record_row. apply update_where_dom.
Qed.

(** X4: on an opened tracker the reads never raise, whatever has been written
    since it was opened: both rows are there for good. *)
Theorem opened_tracker_reads file ops k tr :
  exists v,
    tracker_read (UpdateTracker.last k)
      {| trace := tr; db := apply_records ops (UpdateTracker.__init__ file) |}
    = (Ret v, {| trace := tr; db := apply_records ops (UpdateTracker.__init__ file) |}).
Proof.
  assert (is_Some (UpdateTracker.last k (apply_records ops (UpdateTracker.__init__ file))))
    as [v Hv].
  { rewrite last_row. apply elem_of_dom. rewrite apply_records_dom. apply elem_of_dom.
    rewrite init_lookup.
    destruct (UpdateTracker.DB_INIT file !! UpdateTracker.row k); [eauto |].
    destruct k; simpl; eauto. }
  exists v. unfold tracker_read. simpl. now rewrite Hv.
Qed.

(** X5: without its row a kind cannot be tracked: the write changes nothing,
    so the row is still missing, and the read raises [TypeError]. *)
Theorem missing_row k ts (t : gmap string Z) tr :
  t !! UpdateTracker.row k = None ->
  UpdateTracker.record k ts t = t /\
  tracker_read (UpdateTracker.last k) {| trace := tr; db := t |}
  = (Raise TypeError, {| trace := tr; db := t |}).
Proof.
  intros Hn. split.
  - rewrite record_row. unfold UpdateTracker.update_where. now rewrite Hn.
  - unfold tracker_read. simpl. now rewrite last_row, Hn.
Qed.

Lemma missing_row_witness :
  UpdateTracker.record REFRESH 7 (∅ : gmap string Z) = ∅ /\
  tracker_read (UpdateTracker.last REFRESH) {| trace := []; db := ∅ |}
  = (Raise TypeError, {| trace := []; db := ∅ |}).
Proof. apply (missing_row REFRESH 7 ∅ []). reflexivity. Defined.

(** ** More on the scheduler *)

Lemma max_ge_r x y : y <= B64.max x y.
Proof. unfold B64.max, B64.ltb. destruct (x <? y) eqn:E; [lia | apply Z.ltb_ge in E; lia]. Qed.

Lemma max_ge_l x y : x <= B64.max x y.
Proof. unfold B64.max, B64.ltb. destruct (x <? y) eqn:E; [apply Z.ltb_lt in E; lia | lia]. Qed.

Lemma event_time_ge_first T0 B m M N rnd n :
  0 <= B + m -> m < M -> B + M <= 2 ^ 53 ->
  (forall i, is_draw (rnd i)) -> B64.is_b64 N = true ->
  Scheduler.event_time T0 B m M N rnd O <= Scheduler.event_time T0 B m M N rnd n.
Proof.
  intros Hlo Hlt Hhi Hrnd HN. induction n as [| n IH]; [lia |].
  pose proof (event_stream_nondecreasing REFRESH T0 B m M N rnd Hlo Hlt Hhi Hrnd HN n) as H.
  simpl in H. simpl in IH |- *. lia.
Qed.

Lemma first_time_old token T0 B m M N rnd :
  0 <= B + m -> m < M -> B + M <= 2 ^ 53 ->
  is_draw (rnd O) -> B64.is_b64 N = true ->
  T0 + (B + M) * B64.one <= N ->
  when (Scheduler._event_stream token T0 B m M N rnd O) = N.
Proof.
  intros Hlo Hlt Hhi Hrnd HN Hold.
  pose proof (random_interval_bounds B m M (rnd O) Hlt
                ltac:(lia) ltac:(lia) ltac:(lia) Hrnd) as [Hr0 Hr1].
  simpl.
  assert (B64.add T0 (random_interval B m M (rnd O)) <= N).
  { unfold B64.add. apply B64Facts.round_le; [lia | exact HN | lia]. }
  unfold B64.max, B64.ltb.
  destruct (_ <? N) eqn:E; [reflexivity | apply Z.ltb_ge in E; lia].
Qed.

(** X6: the clamp of the first time.  A last success so old that even the
    longest interval after it is over when the stream starts gives the
    start itself as first time, whatever the draw; a last success so recent
    that even the shortest interval is not over gives the sum, unclamped.
    In every case no time of the stream is before its start. *)
Theorem event_stream_clamp token T0 B m M N rnd :
  0 <= B + m -> m < M -> B + M <= 2 ^ 53 ->
  (forall i, is_draw (rnd i)) -> B64.is_b64 N = true ->
  (T0 + (B + M) * B64.one <= N ->
   when (Scheduler._event_stream token T0 B m M N rnd O) = N) /\
  (N <= T0 + (B + m) * B64.one ->
   when (Scheduler._event_stream token T0 B m M N rnd O)
   = B64.add T0 (random_interval B m M (rnd O))) /\
  (forall n, N <= when (Scheduler._event_stream token T0 B m M N rnd n)).
Proof.
  intros Hlo Hlt Hhi Hrnd HN.
  pose proof (random_interval_bounds B m M (rnd O) Hlt
                ltac:(lia) ltac:(lia) ltac:(lia) (Hrnd O)) as [Hr0 Hr1].
  split; [| split].
  - intros Hold. now apply first_time_old.
  - intros Hnew. simpl.
    assert (N <= B64.add T0 (random_interval B m M (rnd O))).
    { unfold B64.add. apply B64Facts.round_ge; [lia | exact HN | lia]. }
    unfold B64.max, B64.ltb.
    destruct (_ <? N) eqn:E; [apply Z.ltb_lt in E; lia | reflexivity].
  - intros n. simpl.
    pose proof (event_time_ge_first T0 B m M N rnd n Hlo Hlt Hhi Hrnd HN) as H.
    simpl in H. pose proof (max_ge_r (B64.add T0 (random_interval B m M (rnd O))) N).
    lia.
Qed.

Lemma event_stream_clamp_witness :
  (0 + (604800 + 60) * B64.one <= 1700000000 * B64.one ->
   when (weekly_from_epoch O) = 1700000000 * B64.one) /\
  (1700000000 * B64.one <= 0 + (604800 + 10) * B64.one ->
   when (weekly_from_epoch O)
   = B64.add 0 (random_interval 604800 10 60 ((fun _ : nat => 2 ^ 52) O))) /\
  (forall n, 1700000000 * B64.one <= when (weekly_from_epoch n)).
Proof.
  apply (event_stream_clamp UPDATE 0 604800 10 60 (1700000000 * B64.one)
           (fun _ => 2 ^ 52)).
  - lia.
  - lia.
  - lia.
  - intros _. unfold is_draw. lia.
  - vm_compute. reflexivity.
Defined.

Lemma next_first last_login last_update now rnd :
  Scheduler.__next__ last_login last_update now rnd O
  = Some (if when (Scheduler._event_stream UPDATE last_update UPDATE_INTERVAL
                     UPDATE_INTERVAL_MIN_DRIFT UPDATE_INTERVAL_MAX_DRIFT
                     (now UPDATE) (rnd UPDATE) O)
             <? when (Scheduler._event_stream REFRESH last_login
                        SESSION_REFRESH_INTERVAL SESSION_REFRESH_INTERVAL_MIN_DRIFT
                        SESSION_REFRESH_INTERVAL_MAX_DRIFT
                        (now REFRESH) (rnd REFRESH) O)
          then Scheduler._event_stream UPDATE last_update UPDATE_INTERVAL
                     UPDATE_INTERVAL_MIN_DRIFT UPDATE_INTERVAL_MAX_DRIFT
                     (now UPDATE) (rnd UPDATE) O
          else Scheduler._event_stream REFRESH last_login
                        SESSION_REFRESH_INTERVAL SESSION_REFRESH_INTERVAL_MIN_DRIFT
                        SESSION_REFRESH_INTERVAL_MAX_DRIFT
                        (now REFRESH) (rnd REFRESH) O).
Proof.
  unfold Scheduler.__next__, Scheduler._iter_events, merge. simpl merge_from.
  unfold heap_keys. simpl zip_with. cbn [heap_top lookup list_lookup].
  destruct (_ <? _); reflexivity.
Qed.

(** X7: after a long pause the refresh comes first and at once: when both
    last successes are older than their longest intervals and the stream of
    the refresh starts no later than that of the update, the first entry of
    the scheduler is the refresh, due at the start of its stream. *)
Theorem scheduler_first_entry last_login last_update now rnd :
  (forall k, B64.is_b64 (now k) = true) ->
  (forall k i, is_draw (rnd k i)) ->
  last_login + (SESSION_REFRESH_INTERVAL + SESSION_REFRESH_INTERVAL_MAX_DRIFT) * B64.one
  <= now REFRESH ->
  last_update + (UPDATE_INTERVAL + UPDATE_INTERVAL_MAX_DRIFT) * B64.one
  <= now UPDATE ->
  now REFRESH <= now UPDATE ->
  Scheduler.__next__ last_login last_update now rnd O
  = Some {| when := now REFRESH; what := REFRESH |}.
Proof.
  intros Hnow Hrnd HR HU Hle.
  assert (HwR := first_time_old REFRESH last_login SESSION_REFRESH_INTERVAL
             SESSION_REFRESH_INTERVAL_MIN_DRIFT SESSION_REFRESH_INTERVAL_MAX_DRIFT
             (now REFRESH) (rnd REFRESH) ltac:(vm_compute; congruence) eq_refl
             ltac:(vm_compute; congruence) (Hrnd REFRESH O) (Hnow REFRESH) HR).
  assert (HwU := first_time_old UPDATE last_update UPDATE_INTERVAL
             UPDATE_INTERVAL_MIN_DRIFT UPDATE_INTERVAL_MAX_DRIFT
             (now UPDATE) (rnd UPDATE) ltac:(vm_compute; congruence) eq_refl
             ltac:(vm_compute; congruence) (Hrnd UPDATE O) (Hnow UPDATE) HU).
  rewrite next_first, HwR, HwU.
  replace (now UPDATE <? now REFRESH) with false
    by (symmetry; apply Z.ltb_ge; lia).
  f_equal. unfold Scheduler._event_stream in *. cbn [when] in HwR. now rewrite HwR.
Qed.

Lemma scheduler_first_entry_witness :
  Scheduler.__next__ 0 0 (fun _ => 1700000000 * B64.one) (fun _ _ => 2 ^ 52) O
  = Some {| when := 1700000000 * B64.one; what := REFRESH |}.
Proof.
  apply (scheduler_first_entry 0 0 (fun _ => 1700000000 * B64.one)
           (fun _ _ => 2 ^ 52)).
  - intros _. vm_compute. reflexivity.
  - intros _ _. unfold is_draw. lia.
  - vm_compute. congruence.
  - vm_compute. congruence.
  - lia.
Defined.

(** ** More on the merge *)

Section MergeMore.
Context {A : Type} (key : A -> Z).

Lemma merge_from_members its pos n :
  Forall (fun x : merged => (order x < length pos)%nat /\
                  exists it, its !! order x = Some it /\ value x = it (position x))
         (merge_from key its pos n).
Proof.
  revert pos. induction n as [| n IH]; intros pos; [constructor |].
  simpl. set (j := heap_top (heap_keys key its pos)).
  destruct (its !! j) as [it |] eqn:Hi; [| constructor].
  destruct (pos !! j) as [p |] eqn:Hp; [| constructor].
  constructor.
  - simpl. split; [eapply lookup_lt_Some; exact Hp | eauto].
  - specialize (IH (<[j := S p]> pos)).
    rewrite length_insert in IH. exact IH.
Qed.

Lemma merge_from_positions its pos n i p0 :
  pos !! i = Some p0 ->
  position <$> filter (fun x : merged => order x = i) (merge_from key its pos n)
  = seq p0 (length (filter (fun x : merged => order x = i) (merge_from key its pos n))).
Proof.
  revert pos p0. induction n as [| n IH]; intros pos p0 Hp0; [reflexivity |].
  simpl. set (j := heap_top (heap_keys key its pos)).
  destruct (its !! j) as [it |] eqn:Hi; [| reflexivity].
  destruct (pos !! j) as [p |] eqn:Hp; [| reflexivity].
  rewrite filter_cons. simpl.
  destruct (decide (j = i)) as [E | NE].
  - rewrite E in *. assert (p = p0) as -> by congruence.
    simpl. f_equal. apply IH.
    apply list_lookup_insert_eq. eapply lookup_lt_Some. exact Hp0.
  - apply IH. now rewrite list_lookup_insert_ne.
Qed.

Lemma filter_none {B} (P : B -> Prop) `{forall x, Decision (P x)} (l : list B) :
  Forall (fun x => ~ P x) l -> filter P l = [].
Proof.
  induction 1 as [| x l Hx _ IH]; [reflexivity |].
  now rewrite filter_cons_False.
Qed.

End MergeMore.

(** X8: the merge neither drops, repeats nor reorders what an iterable yields:
    whatever the iterables, the values of a prefix that come from the
    iterable [i] are its first values, in its own order, each one
    once. *)
Theorem merge_interleaves {A : Type} (key : A -> Z) (its : list (nat -> A)) (n i : nat) :
  (forall x, x ∈ merge key its n ->
             exists it, its !! order x = Some it /\ value x = it (position x)) /\
  position <$> filter (fun x : merged => order x = i) (merge key its n)
  = seq 0 (length (filter (fun x : merged => order x = i) (merge key its n))).
Proof.
  unfold merge. split.
  - intros x Hx.
    pose proof (merge_from_members key its (replicate (length its) O) n) as H.
    rewrite Forall_forall in H. now destruct (H x Hx) as [_ H'].
  - destruct (decide (i < length its)%nat) as [Hlt | Hge].
    + apply merge_from_positions. now apply lookup_replicate_2.
    + assert (filter (fun x : merged => order x = i)
                (merge_from key its (replicate (length its) O) n) = []) as ->;
        [| reflexivity].
      apply filter_none.
      eapply Forall_impl; [apply merge_from_members |].
      intros x [Hx _] E. rewrite length_replicate in Hx. lia.
Qed.


(** ** More on the loop *)

Ltac shape_of_guard :=
  match goal with
  | |- exists o diag oq, (_ :: Called _ ?o' :: ?rest) = _ /\ _ =>
      exists o', (removelast rest); eexists; simpl; split;
      [reflexivity | repeat constructor]
  end.

Section LoopMore.
Context (env : environment) (dir : string).

(** The shape of what a [with] statement adds to the trace. *)
Lemma with_browser_shape k w :
  exists r tr,
    with_browser env dir k w = (r, {| trace := trace w ++ tr; db := db w |}) /\
    ((exists e, tr = [Called browser_new (Some e)] /\ r = Raise e) \/
     (exists o diag oq,
         tr = [Called browser_new None; Called (action k) o] ++ diag
              ++ [Called quit oq] /\
         Forall (fun ev => is_diagnostic ev = true) diag)).
Proof.
  rewrite with_browser_eq.
  unfold managed_browser, browser_quit, bind, ext, try_finally, try_except_else,
    time, raise, record_event.
  destruct (raises env (trace w) browser_new) as [e0 |] eqn:Hnew.
  - exists (Raise e0), [Called browser_new (Some e0)]. split; [reflexivity |].
    left. eauto.
  - cbn [trace db].
    destruct (raises env (trace w ++ [Called browser_new None]) (action k)) as [e |].
    + (* the script raises *)
      cbn [trace db]. destruct (is_WebDriverException e).
      * repeat (cbn [trace db];
                match goal with
                | |- context [match raises env ?t ?c with _ => _ end] =>
                    destruct (raises env t c) as [? |]
                end);
          cbn [trace db]; eexists _, _;
          (split; [f_equal; f_equal; rewrite <- ?app_assoc; simpl; reflexivity |]);
          right; shape_of_guard.
      * cbn [trace db].
        match goal with
        | |- context [match raises env ?t ?c with _ => _ end] =>
            destruct (raises env t c) as [? |]
        end; cbn [trace db]; eexists _, _;
          (split; [f_equal; f_equal; rewrite <- ?app_assoc; simpl; reflexivity |]);
          right; exists (Some e), []; eexists; (split; [reflexivity | constructor]).
    + repeat (cbn [trace db];
              match goal with
              | |- context [match raises env ?t ?c with _ => _ end] =>
                  destruct (raises env t c) as [? |]
              end);
        cbn [trace db]; eexists _, _;
        (split; [f_equal; f_equal; rewrite <- ?app_assoc; simpl; reflexivity |]);
        right; shape_of_guard.
Qed.

Lemma wait_any fuel when_ p w r w' :
  wall_clock_wait env fuel when_ p w = (r, w') ->
  exists tr,
    w' = {| trace := trace w ++ tr; db := db w |} /\
    Forall (fun ev => is_poll ev = true) tr /\
    (forall e, r = Raise e -> exists tr0, raises env tr0 (sleep p) = Some e).
Proof.
  revert w. induction fuel as [| fuel IH]; intros w H.
  - simpl in H. injection H as <- <-. exists [].
    split; [destruct w; simpl; now rewrite app_nil_r |].
    split; [constructor | discriminate].
  - destruct (Z.lt_ge_cases (clock env (trace w)) when_) as [Hlt | Hge].
    + rewrite wait_turn in H by exact Hlt.
      destruct (raises env _ (sleep p)) as [e |] eqn:Hs.
      * injection H as <- <-. eexists [_; _].
        split; [unfold record_event; simpl; now rewrite <- app_assoc |].
        split; [repeat constructor |].
        intros e' [= <-]. eauto.
      * apply IH in H. destruct H as (tr & -> & Hall & Hr).
        exists (Clock (clock env (trace w)) :: Called (sleep p) None :: tr).
        split; [unfold record_event; simpl; now rewrite <- !app_assoc |].
        split; [repeat constructor; exact Hall | exact Hr].
    + rewrite wait_due in H by exact Hge. injection H as <- <-.
      eexists [_]. split; [reflexivity |].
      split; [repeat constructor | discriminate].
Qed.

End LoopMore.

Lemma session_ok_app o a b :
  session_ok o (a ++ b)
  = match session_ok o a with
    | Some o' => session_ok o' b
    | None => None
    end.
Proof.
  revert o. induction a as [| ev a IH]; intros o; [reflexivity |].
  destruct ev as [c r |]; simpl; [| apply IH].
  destruct c, r, o; simpl; try reflexivity; apply IH.
Qed.

Lemma session_ok_polls tr :
  Forall (fun ev => is_poll ev = true) tr -> session_ok false tr = Some false.
Proof.
  induction 1 as [| ev tr Hev _ IH]; [reflexivity |].
  destruct ev as [[] r |]; try discriminate; simpl; exact IH.
Qed.

Lemma session_ok_diagnostics diag :
  Forall (fun ev => is_diagnostic ev = true) diag -> session_ok true diag = Some true.
Proof.
  induction 1 as [| ev tr Hev _ IH]; [reflexivity |].
  destruct ev as [[] r |]; try discriminate; simpl; exact IH.
Qed.

Lemma actions_app a b : actions (a ++ b) = actions a ++ actions b.
Proof. apply omap_app. Qed.

Lemma actions_polls tr :
  Forall (fun ev => is_poll ev = true) tr -> actions tr = [].
Proof.
  induction 1 as [| ev tr Hev _ IH]; [reflexivity |].
  destruct ev as [[] r |]; try discriminate; simpl; exact IH.
Qed.

Lemma actions_diagnostics diag :
  Forall (fun ev => is_diagnostic ev = true) diag -> actions diag = [].
Proof.
  induction 1 as [| ev tr Hev _ IH]; [reflexivity |].
  destruct ev as [[] r |]; try discriminate; simpl; exact IH.
Qed.

Section LoopRuns.
Context (env : environment) (dir : string).

(** One entry handled, whatever happens. *)
Lemma handle_event_run ev w :
  exists r tr dbv,
    handle_event env dir ev w = (r, {| trace := trace w ++ tr; db := dbv |}) /\
    (r = Ret tt \/ r = Raise KeyboardInterrupt) /\
    session_ok false tr = Some false /\
    (actions tr = [] \/ actions tr = [what ev]) /\
    (dbv = db w \/ exists t, dbv = UpdateTracker.record (what ev) t (db w)).
Proof.
  destruct (with_browser_shape env dir (what ev) w) as (r0 & tr & Heq & Hshape).
  assert (Hs : session_ok false tr = Some false /\
               (actions tr = [] \/ actions tr = [what ev])).
  { destruct Hshape as [(e & -> & _) | (o & diag & oq & -> & Hd)].
    - split; [reflexivity | now left].
    - split.
      + cbn [app session_ok].
        rewrite session_ok_app, (session_ok_diagnostics diag Hd). reflexivity.
      + right. rewrite !actions_app, (actions_diagnostics diag Hd). reflexivity. }
  destruct Hs as [Hok Hact].
  rewrite handle_event_eq. unfold try_except, bind at 1. rewrite Heq.
  destruct r0 as [[] | e |].
  - unfold bind, time, tracker_write, record_event. cbn [trace db].
    eexists (Ret tt), (tr ++ [_]), _.
    split; [rewrite <- app_assoc; reflexivity |].
    split; [now left |]. split.
    + rewrite session_ok_app, Hok. reflexivity.
    + split; [rewrite actions_app, app_nil_r; exact Hact | right; eauto].
  - destruct e; simpl.
    + exists (Ret tt), tr, (db w). repeat split; auto.
    + exists (Ret tt), tr, (db w). repeat split; auto.
    + exists (Raise KeyboardInterrupt), tr, (db w). repeat split; auto.
  - destruct Hshape as [(e & _ & [=]) | (o & diag & oq & Htr & _)].
    exfalso. rewrite with_browser_eq in Heq.
    destruct (with_browser_outcome env dir (what ev) w) as (r1 & tr1 & Heq1 & Hr1 & _).
    rewrite with_browser_eq in Heq1. congruence.
Qed.

Lemma entries_step sched i n :
  entries sched i (S n)
  = match sched i with
    | Some ev => ev :: entries sched (S i) n
    | None => entries sched (S i) n
    end.
Proof. unfold entries. simpl. now destruct (sched i). Qed.

(** A run of the loop, whatever happens. *)
Lemma event_loop_run sched fuel : forall i w,
  exists r tr dbv,
    event_loop env fuel dir sched i w = (r, {| trace := trace w ++ tr; db := dbv |}) /\
    session_ok false tr = Some false /\
    actions tr `sublist_of` (what <$> entries sched i fuel) /\
    (forall k v, UpdateTracker.last k (db w) = Some v ->
                 exists v', UpdateTracker.last k dbv = Some v' /\ v <= v') /\
    (r = OutOfFuel \/ (r = Ret tt /\ exists j, sched j = None) \/
     r = Raise KeyboardInterrupt \/
     exists e tr0 p, r = Raise e /\ raises env tr0 (sleep p) = Some e).
Proof.
  induction fuel as [| fuel IH]; intros i w.
  - exists OutOfFuel, [], (db w). simpl. rewrite app_nil_r.
    split; [now destruct w |]. split; [reflexivity |].
    split; [apply sublist_nil_l |]. split; [| now left].
    intros k v Hv. exists v. split; [exact Hv | lia].
  - destruct (sched i) as [ev |] eqn:Hi.
    2:{ exists (Ret tt), [], (db w). cbn [event_loop]. rewrite Hi, app_nil_r.
        split; [now destruct w |]. split; [reflexivity |].
        split; [apply sublist_nil_l |]. split; [| right; left; eauto].
        intros k v Hv. exists v. split; [exact Hv | lia]. }
    rewrite (event_loop_step env dir fuel sched i ev w Hi), entries_step, Hi.
    destruct (wall_clock_wait env (S fuel) (when ev) B64.one w) as [r1 w1] eqn:Hw.
    destruct (wait_any env _ _ _ _ _ _ Hw) as (tr1 & -> & Hp1 & Hr1).
    pose proof (session_ok_polls tr1 Hp1) as Hs1.
    pose proof (actions_polls tr1 Hp1) as Ha1.
    destruct r1 as [[] | e |].
    + destruct (handle_event_run ev {| trace := trace w ++ tr1; db := db w |})
        as (r2 & tr2 & db2 & Hh & Hr2 & Hs2 & Ha2 & Hdb2).
      rewrite Hh. cbn [trace db] in *.
      assert (Hmono2 : forall k v, UpdateTracker.last k (db w) = Some v ->
                         exists v', UpdateTracker.last k db2 = Some v' /\ v <= v').
      { intros k v Hv. destruct Hdb2 as [-> | [t ->]].
        - exists v. split; [exact Hv | lia].
        - now apply last_record_any. }
      destruct Hr2 as [-> | ->].
      * destruct (IH (S i) {| trace := (trace w ++ tr1) ++ tr2; db := db2 |})
          as (r3 & tr3 & db3 & Hl & Hs3 & Ha3 & Hm3 & Hr3).
        rewrite Hl. cbn [trace db] in *.
        exists r3, (tr1 ++ tr2 ++ tr3), db3.
        split; [now rewrite <- !app_assoc |].
        split; [now rewrite session_ok_app, Hs1, session_ok_app, Hs2 |].
        split; [| split; [| exact Hr3]].
        -- rewrite !actions_app, Ha1. cbn [app fmap list_fmap].
           destruct Ha2 as [-> | ->]; simpl;
             [now apply sublist_cons | now apply sublist_skip].
        -- intros k v Hv. destruct (Hmono2 k v Hv) as (v2 & Hv2 & Hle2).
           destruct (Hm3 k v2 Hv2) as (v3 & Hv3 & Hle3).
           exists v3. split; [exact Hv3 | lia].
      * exists (Raise KeyboardInterrupt), (tr1 ++ tr2), db2.
        split; [now rewrite <- !app_assoc |].
        split; [now rewrite session_ok_app, Hs1 |].
        split; [| split; [exact Hmono2 | auto]].
        rewrite !actions_app, Ha1. cbn [app fmap list_fmap].
        destruct Ha2 as [-> | ->];
          [apply sublist_nil_l | apply sublist_skip, sublist_nil_l].
    + exists (Raise e), tr1, (db w).
      split; [reflexivity |]. split; [exact Hs1 |].
      split; [rewrite Ha1; apply sublist_nil_l |]. split.
      * intros k v Hv. exists v. split; [exact Hv | lia].
      * destruct (Hr1 e eq_refl) as [tr0 H0]. right. right. right. eauto.
    + exists OutOfFuel, tr1, (db w).
      split; [reflexivity |]. split; [exact Hs1 |].
      split; [rewrite Ha1; apply sublist_nil_l |]. split; [| now left].
      intros k v Hv. exists v. split; [exact Hv | lia].
Qed.

End LoopRuns.





(** X12: along every run of the loop the browser sessions are well bracketed:
    a session is opened only when none is open, the script and the
    diagnostic calls run only inside a session, the waits only outside,
    and every session that was opened is closed by one [quit] before the
    run goes on or ends. *)
Theorem sessions_well_bracketed env dir sched fuel i w :
  exists tr,
    trace (snd (event_loop env fuel dir sched i w)) = trace w ++ tr /\
    session_ok false tr = Some false.
Proof.
  destruct (event_loop_run env dir sched fuel i w) as (r & tr & dbv & -> & Hs & _).
  exists tr. split; [reflexivity | exact Hs].
Qed.

(** X13: the loop runs the scripts in the order of the schedule, at most one
    for each entry and none for an entry it has not reached. *)
Theorem dispatch_in_schedule_order env dir sched fuel i w :
  exists tr,
    trace (snd (event_loop env fuel dir sched i w)) = trace w ++ tr /\
    actions tr `sublist_of` (what <$> entries sched i fuel).
Proof.
  destruct (event_loop_run env dir sched fuel i w)
    as (r & tr & dbv & -> & _ & Ha & _).
  exists tr. split; [reflexivity | exact Ha].
Qed.

(** X14: over a run of the loop, however it ends, the time that the tracker
    holds for a kind never goes back, and the row stays. *)
Theorem loop_never_lowers_tracker env dir sched fuel i w k v :
  UpdateTracker.last k (db w) = Some v ->
  exists v',
    UpdateTracker.last k (db (snd (event_loop env fuel dir sched i w))) = Some v' /\
    v <= v'.
Proof.
  intros Hv.
  destruct (event_loop_run env dir sched fuel i w)
    as (r & tr & dbv & -> & _ & _ & Hm & _).
  exact (Hm k v Hv).
Qed.

Lemma loop_never_lowers_tracker_witness :
  exists v',
    UpdateTracker.last REFRESH
      (db (snd (event_loop (calm B64.one) 2 "screenshots"
                  (fun _ => Some (every_second REFRESH 0)) 0 fresh_world)))
    = Some v' /\ 0 <= v'.
Proof.
  apply (loop_never_lowers_tracker (calm B64.one) "screenshots"
           (fun _ => Some (every_second REFRESH 0)) 2 0 fresh_world REFRESH 0).
  reflexivity.
Defined.

(** ** The browser scripts *)

Import Scripts.

(** The delay before a click is between one and three seconds. *)
Lemma delay_range k :
  is_draw k ->
  in_delay_range (B64.add (B64.of_int 1) (B64.mul (B64.of_int 2) (random_of k))).
Proof.
  intros Hk. pose proof (random_of_range k Hk) as Hu.
  pose proof B64Facts.one_pos as H1. unfold in_delay_range.
  rewrite !B64Facts.of_int_exact by (vm_compute; congruence).
  assert (Hm : 0 <= B64.mul (2 * B64.one) (random_of k) <= 2 * B64.one).
  { unfold B64.mul. split.
    - apply B64Facts.round_nonneg; [nia | lia].
    - apply B64Facts.round_le;
        [lia | apply B64Facts.is_b64_int; vm_compute; congruence | nia]. }
  unfold B64.add. split.
  - replace B64.one with (1 * B64.one) at 1 by lia.
    apply B64Facts.round_ge;
      [lia | apply B64Facts.is_b64_int; vm_compute; congruence | lia].
  - apply B64Facts.round_le;
      [lia | apply B64Facts.is_b64_int; vm_compute; congruence | lia].
Qed.

Example delay_reaches_three :
  B64.add (B64.of_int 1) (B64.mul (B64.of_int 2) (random_of (2 ^ 53 - 1)))
  = 3 * B64.one.
Proof. vm_compute. reflexivity. Qed.

Lemma failures_app a b : failures (a ++ b) = failures a ++ failures b.
Proof. apply omap_app. Qed.

Lemma sleeps_app a b : sleeps (a ++ b) = sleeps a ++ sleeps b.
Proof. apply omap_app. Qed.

Lemma hrefs_read_app a b : hrefs_read (a ++ b) = hrefs_read a ++ hrefs_read b.
Proof. apply omap_app. Qed.

Lemma clicks_from_app h a b :
  exists h', clicks_from h (a ++ b) = clicks_from h a ++ clicks_from h' b.
Proof.
  revert h. induction a as [| s a IH]; intros h; [exists h; reflexivity |].
  destruct s as [c r | n | v | k]; simpl; try apply IH.
  destruct c; try apply IH.
  destruct (IH h) as [h' Hh']. exists h'. now rewrite Hh'.
Qed.

Ltac list_eq := rewrite <- ?app_assoc; simpl; reflexivity.

Ltac stops :=
  split; [reflexivity |];
  first [ discriminate
        | intros ? [= <-];
          match goal with
          | |- exists pre c, ?l = _ =>
              exists (removelast l); eexists; simpl; reflexivity
          end ].

Lemma stops_at_failure_app {A} (r : res A) pre new :
  failures pre = [] -> stops_at_failure r new -> stops_at_failure r (pre ++ new).
Proof.
  intros Hpre (Hx & Hl). split.
  - now rewrite failures_app, Hpre.
  - intros e He. destruct (Hl e He) as (p & c & ->).
    exists (pre ++ p), c. now rewrite app_assoc.
Qed.

Section ScriptRuns.
Context (pg : page).

Lemma perform_run c tr :
  perform pg c tr
  = (match fails pg tr c with None => Ret tt | Some e => Raise e end,
     tr ++ [Did c (fails pg tr c)]).
Proof. unfold perform. now destruct (fails pg tr c). Qed.

(** The sleep, the click and the two waits that follow the choice of a
    link. *)
Lemma click_block {A} (a : A) d j tr :
  exists r new,
    (perform pg (script_sleep d) ;;
     perform pg (click j) ;;
     perform pg (until_staleness_of j) ;;
     perform pg (until_url_matches RESUME_LIST_URL_PATTERN) ;;
     unit_ a)%script tr = (r, tr ++ new) /\
    r <> OutOfFuel /\ stops_at_failure r new /\
    sleeps new = [d] /\ hrefs_read new = [] /\
    (forall h, clicks_from h new = [] \/ clicks_from h new = [h]) /\
    (forall x, r = Ret x -> x = a /\ forall h, clicks_from h new = [h]) /\
    (quiet pg -> r = Ret a).
Proof.
  unfold then_, perform, unit_.
  destruct (fails pg tr (script_sleep d)) as [e1 |] eqn:E1; cbv beta iota.
  { eexists _, [_]. split; [reflexivity |]. split; [discriminate |]. split; [stops |].
    repeat split; try discriminate; auto.
    intros Hq. rewrite Hq in E1. discriminate. }
  destruct (fails pg _ (click j)) as [e2 |] eqn:E2; cbv beta iota.
  { eexists _, [_; _]. split; [list_eq |]. split; [discriminate |]. split; [stops |].
    repeat split; try discriminate; auto.
    intros Hq. rewrite Hq in E2. discriminate. }
  destruct (fails pg _ (until_staleness_of j)) as [e3 |] eqn:E3; cbv beta iota.
  { eexists _, [_; _; _]. split; [list_eq |]. split; [discriminate |]. split; [stops |].
    repeat split; try discriminate; auto.
    intros Hq. rewrite Hq in E3. discriminate. }
  destruct (fails pg _ (until_url_matches _)) as [e4 |] eqn:E4; cbv beta iota.
  { eexists _, [_; _; _; _]. split; [list_eq |]. split; [discriminate |]. split; [stops |].
    repeat split; try discriminate; auto.
    intros Hq. rewrite Hq in E4. discriminate. }
  eexists _, [_; _; _; _]. split; [list_eq |]. split; [discriminate |]. split; [stops |].
  repeat split; try discriminate; auto; congruence.
Qed.

(** One pass of the [for] over the links. *)
Lemma for_elements_run n : forall j visited tr,
  exists r new,
    for_elements pg n j visited tr = (r, tr ++ new) /\
    r <> OutOfFuel /\ stops_at_failure r new /\
    (fair pg -> Forall in_delay_range (sleeps new)) /\
    (forall links, shows_only pg links -> Forall (fun u => u ∈ links) (hrefs_read new)) /\
    (forall h,
        clicks_from h new = [] \/
        exists u, clicks_from h new = [u] /\ (u ∉ visited) /\ u ∈ hrefs_read new) /\
    (forall v, r = Ret (Some v) ->
       exists u, (forall h, clicks_from h new = [u]) /\ (u ∉ visited) /\
                 v = {[u]} ∪ visited /\ u ∈ hrefs_read new) /\
    (r = Ret None ->
     (forall h, clicks_from h new = []) /\
     length (hrefs_read new) = n /\ Forall (fun u => u ∈ visited) (hrefs_read new)) /\
    (quiet pg -> exists x, r = Ret x).
Proof.
  induction n as [| n IH]; intros j visited tr.
  - exists (Ret None), []. simpl. rewrite app_nil_r.
    split; [reflexivity |]. split; [discriminate |]. split; [stops |].
    repeat split; try constructor; try discriminate; eauto.
  - cbn [for_elements]. unfold then_ at 1, href_of, then_ at 1.
    rewrite perform_run.
    destruct (fails pg tr (get_attribute j "href")) as [e |] eqn:Hga; cbv beta iota.
    { exists (Raise e), [Did (get_attribute j "href") (Some e)].
      split; [reflexivity |]. split; [discriminate |]. split; [stops |].
      split; [constructor |]. split; [constructor |].
      split; [now left |]. split; [discriminate |]. split; [discriminate |].
      intros Hq. rewrite Hq in Hga. discriminate. }
    set (tr1 := tr ++ [Did (get_attribute j "href") None]).
    set (href := attribute pg tr1 j).
    destruct (decide (href ∈ visited)) as [Hin | Hnin].
    + destruct (IH (S j) visited (tr1 ++ [Attribute href]))
        as (r & new & Heq & Hfu & Hst & Hsl & Hsh & Hcl & Hsome & Hnone & Hq).
      exists r, ([Did (get_attribute j "href") None; Attribute href] ++ new).
      assert (Hc : forall h,
                 clicks_from h ([Did (get_attribute j "href") None;
                                 Attribute href] ++ new)
                 = clicks_from href new) by reflexivity.
      assert (Hh : hrefs_read ([Did (get_attribute j "href") None;
                                Attribute href] ++ new)
                   = href :: hrefs_read new) by reflexivity.
      rewrite Hh. setoid_rewrite Hc.
      split; [rewrite Heq; unfold tr1; f_equal; list_eq |].
      split; [exact Hfu |]. split; [now apply stops_at_failure_app |].
      split; [intros Hfair; rewrite sleeps_app; exact (Hsl Hfair) |].
      split.
      { intros links Hl. constructor; [apply Hl | exact (Hsh links Hl)]. }
      split.
      { intros _. destruct (Hcl href) as [H | (u & H & Hu & Hr)];
          [now left | right]. exists u.
        split; [exact H |]. split; [exact Hu |]. now apply elem_of_cons; right. }
      split.
      { intros v Hv. destruct (Hsome v Hv) as (u & H & Hu & Hvu & Hr).
        exists u. split; [intros _; apply H |]. split; [exact Hu |].
        split; [exact Hvu |]. now apply elem_of_cons; right. }
      split; [| exact Hq].
      intros Hr. destruct (Hnone Hr) as (H & Hlen & Hall).
      split; [intros _; apply H |]. split; [simpl; now f_equal | now constructor].
    + unfold then_ at 1, random. cbv beta iota.
      set (tr2 := tr1 ++ [Attribute href]).
      assert (Hd : fair pg ->
                   in_delay_range
                     (B64.add (B64.of_int 1)
                        (B64.mul (B64.of_int 2) (random_of (draw pg tr2))))).
      { intros Hfair. apply delay_range, Hfair. }
      revert Hd.
      generalize (B64.add (B64.of_int 1)
                    (B64.mul (B64.of_int 2) (random_of (draw pg tr2)))).
      intros d Hd.
      destruct (click_block (Some ({[href]} ∪ visited)) d j
                  (tr2 ++ [Drew (draw pg tr2)]))
        as (r & new & Heq & Hfu & Hst & Hsl & Hhr & Hcl & Hret & Hq).
      exists r, ([Did (get_attribute j "href") None; Attribute href;
                  Drew (draw pg tr2)] ++ new).
      assert (Hc : forall h,
                 clicks_from h ([Did (get_attribute j "href") None;
                                 Attribute href; Drew (draw pg tr2)] ++ new)
                 = clicks_from href new) by reflexivity.
      assert (Hh : hrefs_read ([Did (get_attribute j "href") None;
                                Attribute href; Drew (draw pg tr2)] ++ new)
                   = [href]) by (simpl; now rewrite Hhr).
      rewrite Hh. setoid_rewrite Hc.
      split; [rewrite Heq; unfold tr2, tr1; f_equal; list_eq |].
      split; [exact Hfu |]. split; [now apply stops_at_failure_app |].
      split.
      { intros Hfair. rewrite sleeps_app, Hsl. simpl.
        constructor; [now apply Hd | constructor]. }
      split.
      { intros links Hl. constructor; [apply Hl | constructor]. }
      split.
      { intros _. destruct (Hcl href) as [H | H]; [now left | right].
        exists href. split; [exact H |]. split; [exact Hnin |].
        apply list_elem_of_here. }
      split.
      { intros v Hv. destruct (Hret _ Hv) as [Hx Hc'].
        exists href. split; [intros _; apply Hc' |]. split; [exact Hnin |].
        split; [congruence | apply list_elem_of_here]. }
      split.
      { intros Hr. destruct (Hret _ Hr) as [Hx _]. discriminate. }
      intros Hquiet. rewrite (Hq Hquiet). eauto.
Qed.

(** The [while True] of [update], whatever the page does. *)
Lemma while_true_run fuel : forall visited tr,
  exists r new,
    while_true pg fuel visited tr = (r, tr ++ new) /\
    stops_at_failure r new /\
    (fair pg -> Forall in_delay_range (sleeps new)) /\
    (forall h, NoDup (clicks_from h new) /\
               Forall (fun u => u ∉ visited) (clicks_from h new)) /\
    (forall links h, shows_only pg links ->
                     Forall (fun u => u ∈ links) (clicks_from h new)) /\
    (forall links, quiet pg -> shows_only pg links -> visited ⊆ links ->
                   (size links < fuel + size visited)%nat -> r = Ret tt) /\
    (r = Ret tt ->
     exists pre n last,
       new = pre ++ [Did (find_elements_by_xpath UPDATE_BUTTON_XPATH) None;
                     Found n] ++ last /\
       length (hrefs_read last) = n /\
       (forall h, clicks_from h last = []) /\
       (forall h, Forall (fun u => u ∈ visited \/ u ∈ clicks_from h pre)
                         (hrefs_read last))).
Proof.
  induction fuel as [| fuel IH]; intros visited tr.
  - exists OutOfFuel, []. simpl. rewrite app_nil_r.
    split; [reflexivity |]. split; [split; [reflexivity | discriminate] |].
    split; [constructor |].
    split; [intros h; split; constructor |].
    split; [constructor |].
    split; [| discriminate].
    intros links _ _ Hsub Hlt. apply subseteq_size in Hsub. lia.
  - cbn [while_true]. unfold then_ at 1, find_elements, then_ at 1.
    rewrite perform_run.
    destruct (fails pg tr (find_elements_by_xpath UPDATE_BUTTON_XPATH))
      as [e |] eqn:Hfind; cbv beta iota.
    { exists (Raise e), [Did (find_elements_by_xpath UPDATE_BUTTON_XPATH) (Some e)].
      split; [reflexivity |]. split; [stops |].
      split; [constructor |].
      split; [intros h; split; constructor |].
      split; [constructor |].
      split; [| discriminate].
      intros links Hq. rewrite Hq in Hfind. discriminate. }
    set (tr1 := tr ++ [Did (find_elements_by_xpath UPDATE_BUTTON_XPATH) None]).
    set (n := found pg tr1).
    unfold then_ at 1.
    destruct (for_elements_run n O visited (tr1 ++ [Found n]))
      as (r1 & new1 & Heq & Hfu & Hst & Hsl & Hsh & Hcl & Hsome & Hnone & Hq).
    rewrite Heq.
    set (head := [Did (find_elements_by_xpath UPDATE_BUTTON_XPATH) None; Found n]).
    assert (Hpre : (tr1 ++ [Found n]) ++ new1 = tr ++ head ++ new1)
      by (unfold tr1, head; list_eq).
    destruct r1 as [[v |] | e |]; [| | | congruence].
    + (* a link was clicked: another turn *)
      destruct (Hsome v eq_refl) as (u & Hu1 & Hnin & -> & Hread).
      destruct (IH ({[u]} ∪ visited) ((tr1 ++ [Found n]) ++ new1))
        as (r & new2 & Heq2 & Hst2 & Hsl2 & Hcl2 & Hin2 & Hterm2 & Hpost2).
      exists r, (head ++ new1 ++ new2).
      split; [rewrite Heq2, Hpre; f_equal; list_eq |].
      assert (Hc : forall h, exists h',
                 clicks_from h (head ++ new1 ++ new2) = u :: clicks_from h' new2).
      { intros h. destruct (clicks_from_app h new1 new2) as [h' Hh'].
        exists h'. change (clicks_from h (head ++ new1 ++ new2))
          with (clicks_from h (new1 ++ new2)). now rewrite Hh', Hu1. }
      split.
      { apply stops_at_failure_app; [reflexivity |].
        destruct Hst as [Hx1 _]. destruct Hst2 as [Hx2 Hl2]. split.
        - now rewrite failures_app, Hx1.
        - intros e He. destruct (Hl2 e He) as (p & c & ->).
          exists (new1 ++ p), c. now rewrite app_assoc. }
      split.
      { intros Hfair. change (sleeps (head ++ new1 ++ new2)) with (sleeps (new1 ++ new2)).
        rewrite sleeps_app. apply Forall_app. split; [now apply Hsl | now apply Hsl2]. }
      split.
      { intros h. destruct (Hc h) as [h' ->]. destruct (Hcl2 h') as [Hnd Hall]. split.
        - constructor; [| exact Hnd]. intros Hin.
          rewrite Forall_forall in Hall. apply (Hall u Hin).
          apply elem_of_union. left. now apply elem_of_singleton.
        - constructor; [exact Hnin |]. eapply Forall_impl; [exact Hall |].
          intros x Hx Hv. apply Hx, elem_of_union. now right. }
      split.
      { intros links h Hl. destruct (Hc h) as [h' ->].
        constructor; [| now apply Hin2].
        specialize (Hsh links Hl). rewrite Forall_forall in Hsh. now apply Hsh. }
      split.
      { intros links Hquiet Hl Hsub Hlt. apply (Hterm2 links Hquiet Hl).
        - specialize (Hsh links Hl). rewrite Forall_forall in Hsh.
          specialize (Hsh u Hread).
          apply union_least; [now apply singleton_subseteq_l | exact Hsub].
        - rewrite size_union by (now apply disjoint_singleton_l).
          rewrite size_singleton. lia. }
      intros Hr. destruct (Hpost2 Hr) as (pre & n2 & last & -> & Hlen & Hnc & Hall).
      exists (head ++ new1 ++ pre), n2, last.
      split; [list_eq |]. split; [exact Hlen |]. split; [exact Hnc |].
      intros h. destruct (clicks_from_app h new1 pre) as [h' Hh'].
      change (clicks_from h (head ++ new1 ++ pre)) with (clicks_from h (new1 ++ pre)).
      rewrite Hh', Hu1. eapply Forall_impl; [exact (Hall h') |].
      intros x [Hx | Hx]; [| right; now apply elem_of_cons; right].
      apply elem_of_union in Hx as [Hx | Hx]; [| now left].
      right. apply elem_of_singleton in Hx. subst x. apply list_elem_of_here.
    + (* every link has been visited *)
      destruct (Hnone eq_refl) as (Hnc & Hlen & Hall).
      exists (Ret tt), (head ++ new1).
      split; [unfold unit_; rewrite Hpre; reflexivity |].
      split.
      { apply stops_at_failure_app; [reflexivity |].
        destruct Hst as [Hx1 _]. split; [exact Hx1 | discriminate]. }
      split; [exact Hsl |].
      split.
      { intros h. change (clicks_from h (head ++ new1)) with (clicks_from h new1).
        rewrite Hnc. split; constructor. }
      split.
      { intros links h _. change (clicks_from h (head ++ new1)) with (clicks_from h new1).
        rewrite Hnc. constructor. }
      split; [reflexivity |].
      intros _. exists [], n, new1. split; [reflexivity |].
      split; [exact Hlen |]. split; [exact Hnc |].
      intros h. eapply Forall_impl; [exact Hall |]. now left.
    + (* the pass raised *)
      exists (Raise e), (head ++ new1).
      split; [rewrite Hpre; reflexivity |].
      split.
      { apply stops_at_failure_app; [reflexivity |].
        destruct Hst as [Hx1 Hl1]. split; [exact Hx1 |].
        intros e' [= <-]. now apply Hl1. }
      split; [exact Hsl |].
      split.
      { intros h. change (clicks_from h (head ++ new1)) with (clicks_from h new1).
        destruct (Hcl h) as [-> | (u & -> & Hu & _)]; split; repeat constructor.
        - apply not_elem_of_nil.
        - exact Hu. }
      split.
      { intros links h Hl. change (clicks_from h (head ++ new1)) with (clicks_from h new1).
        destruct (Hcl h) as [-> | (u & -> & _ & Hr)]; repeat constructor.
        specialize (Hsh links Hl). rewrite Forall_forall in Hsh. now apply Hsh. }
      split; [| discriminate].
      intros links Hquiet. destruct (Hq Hquiet) as [x Hx]. discriminate.
Qed.

End ScriptRuns.

Lemma update_run pg fuel tr :
  exists r new,
    update pg fuel tr = (r, tr ++ new) /\
    stops_at_failure r new /\
    (fair pg -> Forall in_delay_range (sleeps new)) /\
    NoDup (clicks new) /\
    (forall links, shows_only pg links -> Forall (fun u => u ∈ links) (clicks new)) /\
    (forall links, quiet pg -> shows_only pg links ->
                   (size links < fuel)%nat -> r = Ret tt) /\
    (r = Ret tt ->
     exists pre n last,
       new = pre ++ [Did (find_elements_by_xpath UPDATE_BUTTON_XPATH) None;
                     Found n] ++ last /\
       length (hrefs_read last) = n /\
       clicks last = [] /\
       Forall (fun u => u ∈ clicks pre) (hrefs_read last)).
Proof.
  unfold update, then_ at 1. rewrite perform_run.
  destruct (fails pg tr (browser_get RESUME_LIST_URL)) as [e |] eqn:Hget;
    cbv beta iota.
  - exists (Raise e), [Did (browser_get RESUME_LIST_URL) (Some e)].
    split; [reflexivity |]. split; [stops |].
    split; [constructor |]. split; [constructor |]. split; [constructor |].
    split; [| discriminate].
    intros links Hq. rewrite Hq in Hget. discriminate.
  - destruct (while_true_run pg fuel ∅ (tr ++ [Did (browser_get RESUME_LIST_URL) None]))
      as (r & new & Heq & Hst & Hsl & Hcl & Hin & Hterm & Hpost).
    exists r, ([Did (browser_get RESUME_LIST_URL) None] ++ new).
    split; [rewrite Heq; f_equal; list_eq |].
    split; [now apply stops_at_failure_app |].
    split; [exact Hsl |].
    split; [exact (proj1 (Hcl None)) |].
    split; [intros links Hl; exact (Hin links None Hl) |].
    split.
    { intros links Hq Hl Hlt. apply (Hterm links Hq Hl).
      - apply empty_subseteq.
      - rewrite size_empty. lia. }
    intros Hr. destruct (Hpost Hr) as (pre & n & last & -> & Hlen & Hnc & Hall).
    exists ([Did (browser_get RESUME_LIST_URL) None] ++ pre), n, last.
    split; [list_eq |]. split; [exact Hlen |]. split; [apply Hnc |].
    eapply Forall_impl; [exact (Hall None) |].
    intros u [Hu | Hu]; [now apply elem_of_empty in Hu | exact Hu].
Qed.

(** X15: [update] never clicks a link twice: the links clicked in one run are
    pairwise different, whatever the page shows, however often it shows
    the same link again and however the run ends.  When the page shows no
    link outside [links], there are at most as many clicks as links. *)
Theorem update_clicks_each_link_once pg fuel tr :
  exists new,
    snd (update pg fuel tr) = tr ++ new /\
    NoDup (clicks new) /\
    forall links, shows_only pg links ->
                  Forall (fun u => u ∈ links) (clicks new) /\
                  (length (clicks new) <= size links)%nat.
Proof.
  destruct (update_run pg fuel tr) as (r & new & Heq & _ & _ & Hnd & Hin & _).
  exists new. rewrite Heq. split; [reflexivity |]. split; [exact Hnd |].
  intros links Hl. specialize (Hin links Hl). split; [exact Hin |].
  rewrite <- (size_list_to_set (C := gset (option string))) by exact Hnd.
  apply subseteq_size. intros u Hu. apply elem_of_list_to_set in Hu.
  rewrite Forall_forall in Hin. now apply Hin.
Qed.

(** X16: [update] ends: when no call raises and the page shows no link outside
    a finite set, [update] returns after at most one turn of its [while]
    for each link, and one more. *)
Theorem update_terminates pg links tr :
  quiet pg -> shows_only pg links ->
  fst (update pg (S (size links)) tr) = Ret tt.
Proof.
  intros Hq Hl.
  destruct (update_run pg (S (size links)) tr)
    as (r & new & Heq & _ & _ & _ & _ & Hterm & _).
  rewrite Heq. apply (Hterm links Hq Hl). lia.
Qed.

Lemma update_terminates_witness :
  fst (update one_link_page (S (size ({[Some "/update/expire_date/1"]}
                                       : gset (option string)))) [])
  = Ret tt.
Proof.
  apply (update_terminates one_link_page {[Some "/update/expire_date/1"]} []).
  - intros tr c. reflexivity.
  - intros tr j. apply elem_of_singleton. reflexivity.
Defined.

(** X17: with draws of [random()], every sleep of [update] lasts between one
    and three seconds. *)
Theorem update_delays pg fuel tr :
  fair pg ->
  exists new,
    snd (update pg fuel tr) = tr ++ new /\
    Forall in_delay_range (sleeps new).
Proof.
  intros Hfair.
  destruct (update_run pg fuel tr) as (r & new & Heq & _ & Hsl & _).
  exists new. rewrite Heq. split; [reflexivity | exact (Hsl Hfair)].
Qed.

Lemma update_delays_witness :
  exists new,
    snd (update one_link_page 3 []) = [] ++ new /\
    Forall in_delay_range (sleeps new).
Proof.
  apply (update_delays one_link_page 3 []).
  intros tr. unfold is_draw. simpl. lia.
Defined.

(** X18: when [update] returns, the page had nothing left to do: the links of
    the last listing had all been clicked earlier in the run, and none was
    clicked after that listing. *)
Theorem update_returns_when_all_clicked pg fuel tr :
  fst (update pg fuel tr) = Ret tt ->
  exists pre n last,
    snd (update pg fuel tr)
    = tr ++ pre ++ [Did (find_elements_by_xpath UPDATE_BUTTON_XPATH) None; Found n]
         ++ last /\
    length (hrefs_read last) = n /\
    clicks last = [] /\
    Forall (fun u => u ∈ clicks pre) (hrefs_read last).
Proof.
  destruct (update_run pg fuel tr) as (r & new & Heq & _ & _ & _ & _ & _ & Hpost).
  rewrite Heq. simpl. intros Hr.
  destruct (Hpost Hr) as (pre & n & last & -> & Hrest).
  exists pre, n, last. split; [reflexivity | exact Hrest].
Qed.

Lemma update_returns_when_all_clicked_witness :
  exists pre n last,
    snd (update one_link_page 2 [])
    = [] ++ pre ++ [Did (find_elements_by_xpath UPDATE_BUTTON_XPATH) None; Found n]
         ++ last /\
    length (hrefs_read last) = n /\
    clicks last = [] /\
    Forall (fun u => u ∈ clicks pre) (hrefs_read last).
Proof.
  apply (update_returns_when_all_clicked one_link_page 2 []).
  vm_compute. reflexivity.
Defined.

Ltac script_leaf n Hq :=
  eexists _, _; split; [rewrite <- ?app_assoc; simpl; reflexivity |];
  split; [exists n; first [split; reflexivity
                          | eexists; split; reflexivity] |];
  split; [stops |];
  first [reflexivity
        | intros Hq;
          match goal with
          | E : fails _ _ _ = Some _ |- _ => rewrite Hq in E; discriminate E
          end].

(** X19: [login] and [refresh] make their calls in order and stop at the first
    that raises, whose exception is their outcome; they return when none
    raises.  So [refresh] clicks only once the button is visible, and both
    sleep only on the page they waited for. *)
Theorem login_refresh_in_order pg tr :
  (exists r new,
      login pg tr = (r, tr ++ new) /\
      in_order login_calls r new /\ stops_at_failure r new /\
      (quiet pg -> r = Ret tt)) /\
  (exists r new,
      refresh pg tr = (r, tr ++ new) /\
      in_order refresh_calls r new /\ stops_at_failure r new /\
      (quiet pg -> r = Ret tt)).
Proof.
  split.
  - unfold login, then_, perform.
    destruct (fails pg tr (browser_get LOGIN_URL)) eqn:E1; cbv beta iota;
      [script_leaf 0%nat Hq |].
    destruct (fails pg _ (until_url_matches POST_LOGIN_URL_PATTERN)) eqn:E2;
      cbv beta iota; [script_leaf 1%nat Hq |].
    destruct (fails pg _ (script_sleep (B64.of_int REFRESH_WAIT))) eqn:E3;
      [script_leaf 2%nat Hq | script_leaf 3%nat Hq].
  - unfold refresh, then_, perform.
    destruct (fails pg tr (browser_get RESUME_LIST_URL)) eqn:E1; cbv beta iota;
      [script_leaf 0%nat Hq |].
    destruct (fails pg _ (until_visibility_of_element_located CREATE_BUTTON_XPATH))
      eqn:E2; cbv beta iota; [script_leaf 1%nat Hq |].
    destruct (fails pg _ (click O)) eqn:E3; cbv beta iota; [script_leaf 2%nat Hq |].
    destruct (fails pg _ (until_url_matches CREATE_URL_PATTERN)) eqn:E4;
      cbv beta iota; [script_leaf 3%nat Hq |].
    destruct (fails pg _ (script_sleep (B64.of_int REFRESH_WAIT))) eqn:E5;
      [script_leaf 4%nat Hq | script_leaf 5%nat Hq].
Qed.

(** X20: [update] raises at most one exception: the one it ends with, raised
    by the last call it made. *)
Theorem update_stops_at_failure pg fuel tr :
  exists r new,
    update pg fuel tr = (r, tr ++ new) /\ stops_at_failure r new.
Proof.
  destruct (update_run pg fuel tr) as (r & new & Heq & Hst & _).
  exists r, new. split; [exact Heq | exact Hst].
Qed.
